(** * Pump-and-dump detection over block transactions: a shallow embedding

    The development follows the Python sources
      - [modify_transactions.py]  (value conversion, [safe_eth_conversion]),
      - [pump_n_dump.py]          (record flattening and loading, value
                                   scaling, interval aggregation, the
                                   lookback detector and the evidence query),
      - [split_data.py]           (the byte-budgeted line splitter).

    Conventions of the embedding.
      - Python [int] is [Z]; Python [float] is abstracted to an exact rational
        [Q] (rounding and overflow are not modelled); a missing float
        (pandas [NaN]) is [None] of [option Q].
      - Python [str] is [string]; the characters are the UTF-8 bytes, so that
        [len(s.encode('utf-8'))] is [String.length].
      - Code that can raise returns a [Result]. *)

From Stdlib Require Import ZArith QArith List String Ascii Bool Lia Lqa Sorted.
From Stdlib Require OrderedTypeEx.
Import ListNotations.

Open Scope Z_scope.

(** ** Exceptions *)

Inductive PyError : Type :=
| IndexError
| ValueError
| TypeError
| KeyError
| UnicodeDecodeError.

Inductive Result (A : Type) : Type :=
| Ok (a : A)
| Raise (e : PyError).

Arguments Ok {A} a.
Arguments Raise {A} e.

Definition bind {A B : Type} (m : Result A) (k : A -> Result B) : Result B :=
  match m with
  | Ok a => k a
  | Raise e => Raise e
  end.

Notation "x <- m ;; k" := (bind m (fun x => k))
  (at level 61, m at next level, right associativity).

(** ** JSON values as Python sees them after [json.loads] *)

Inductive PyValue : Type :=
| PyNone
| PyBool (b : bool)
| PyInt (n : Z)
| PyFloat (x : Q)
| PyStr (s : string)
| PyList
| PyDict.

Module ModifyTransactions.

(** *** [int(value, 16)]

    The built-in first rewrites a string that is not ASCII
    ([_PyUnicode_TransformDecimalAndSpaceToASCII]): a character below 127
    stays, Unicode white space becomes a space, a decimal digit of any script
    becomes its ASCII digit, and the first other character ends the text with
    a question mark.  The parser ([PyLong_FromString]) then reads the ASCII
    text.  It is modelled for the only shape it is called on here, a string
    that starts with [0x]: after the prefix one underscore may come; then
    hexadecimal digits, single underscores between digits allowed; then white
    space of the C locale only.  Anything else is a [ValueError]. *)

Definition hex_digit (c : ascii) : option Z :=
  let n := Z.of_nat (nat_of_ascii c) in
  if (48 <=? n) && (n <=? 57) then Some (n - 48)
  else if (97 <=? n) && (n <=? 102) then Some (n - 87)
  else if (65 <=? n) && (n <=? 70) then Some (n - 55)
  else None.

(** [str.isspace] on the ASCII characters, the white space of [str.strip]. *)
Definition is_space (c : ascii) : bool :=
  let n := Z.of_nat (nat_of_ascii c) in
  ((9 <=? n) && (n <=? 13)) || ((28 <=? n) && (n <=? 32)).

Fixpoint all_space (s : string) : bool :=
  match s with
  | EmptyString => true
  | String c s' => is_space c && all_space s'
  end.

(** [Py_ISSPACE], the white space of the parser: tab to carriage return, and
    the space. *)
Definition is_c_space (c : ascii) : bool :=
  let n := Z.of_nat (nat_of_ascii c) in
  ((9 <=? n) && (n <=? 13)) || (n =? 32).

Fixpoint all_c_space (s : string) : bool :=
  match s with
  | EmptyString => true
  | String c s' => is_c_space c && all_c_space s'
  end.

(** [int_digits s acc]: the rest [s] of a literal of which at least one digit
    has been read, [acc] the number read so far. *)
Fixpoint int_digits (s : string) (acc : Z) : option Z :=
  match s with
  | EmptyString => Some acc
  | String c s' =>
      match hex_digit c with
      | Some d => int_digits s' (acc * 16 + d)
      | None =>
          if Ascii.eqb c "_" then
            match s' with
            | String c' s'' =>
                match hex_digit c' with
                | Some d => int_digits s'' (acc * 16 + d)
                | None => None
                end
            | EmptyString => None
            end
          else if is_c_space c then
            (if all_c_space s' then Some acc else None)
          else None
      end
  end.

Definition int_first_digit (s : string) : option Z :=
  match s with
  | String c s' =>
      match hex_digit c with
      | Some d => int_digits s' d
      | None => None
      end
  | EmptyString => None
  end.

(** [PyLong_FromString(text, base=16)] on an ASCII text that starts with
    [0x]. *)
Definition long_from_string (text : string) : Result Z :=
  match text with
  | String "0" (String x rest) =>
      if Ascii.eqb x "x" || Ascii.eqb x "X" then
        let body := match rest with
                    | String "_" rest' => rest'
                    | _ => rest
                    end in
        match int_first_digit body with
        | Some n => Ok n
        | None => Raise ValueError
        end
      else Raise ValueError
  | _ => Raise ValueError
  end.

(** The characters of a string, as code points, read off its UTF-8 bytes; a
    string stands for the encoding of a Python [str], which is well formed. *)
Definition byte_of (c : ascii) : Z := Z.of_nat (nat_of_ascii c).

Fixpoint code_points (s : string) : list Z :=
  match s with
  | EmptyString => []
  | String a s1 =>
      if byte_of a <? 128 then byte_of a :: code_points s1
      else if byte_of a <? 224 then
        match s1 with
        | String b s2 =>
            ((byte_of a - 192) * 64 + (byte_of b - 128)) :: code_points s2
        | EmptyString => [byte_of a]
        end
      else if byte_of a <? 240 then
        match s1 with
        | String b (String c s3) =>
            ((byte_of a - 224) * 4096 + (byte_of b - 128) * 64 + (byte_of c - 128))
              :: code_points s3
        | _ => [byte_of a]
        end
      else
        match s1 with
        | String b (String c (String d s4)) =>
            ((byte_of a - 240) * 262144 + (byte_of b - 128) * 4096
             + (byte_of c - 128) * 64 + (byte_of d - 128))
              :: code_points s4
        | _ => [byte_of a]
        end
  end.

(** [str.isascii] *)
Fixpoint isascii (s : string) : bool :=
  match s with
  | EmptyString => true
  | String c s' => (byte_of c <? 128) && isascii s'
  end.

(** [Py_UNICODE_ISSPACE] from 127 on. *)
Definition unicode_space (cp : Z) : bool :=
  (cp =? 133) || (cp =? 160) || (cp =? 5760)
  || ((8192 <=? cp) && (cp <=? 8202))
  || (cp =? 8232) || (cp =? 8233) || (cp =? 8239) || (cp =? 8287) || (cp =? 12288).

Definition startswith (s p : string) : bool := String.prefix p s.

Definition wei_per_eth : Z := 10 ^ 18.

(** [tx.get("value", "0")]: a transaction without the key yields the string
    ["0"]. *)
Definition get_value (tx_value : option PyValue) : PyValue :=
  match tx_value with
  | Some v => v
  | None => PyStr "0"
  end.

Section Conversion.

(** [Py_UNICODE_TODECIMAL]: the value of a decimal digit of any script, and
    nothing for the other characters.  The table belongs to the Unicode
    database of the interpreter and is taken as given. *)
Variable unicode_decimal : Z -> option Z.

Fixpoint to_ascii (cps : list Z) : string :=
  match cps with
  | [] => EmptyString
  | cp :: cps' =>
      if cp <? 127 then String (ascii_of_nat (Z.to_nat cp)) (to_ascii cps')
      else if unicode_space cp then String " " (to_ascii cps')
      else match unicode_decimal cp with
           | Some d => String (ascii_of_nat (Z.to_nat (48 + d))) (to_ascii cps')
           | None => "?"%string
           end
  end.

Definition transform_decimal_and_space (value : string) : string :=
  if isascii value then value else to_ascii (code_points value).

Definition int_base16 (value : string) : Result Z :=
  long_from_string (transform_decimal_and_space value).

(** *** [safe_eth_conversion]

    [bool] is a subclass of [int] in Python, so [True] and [False] take the
    numeric branch. *)
Definition safe_eth_conversion (value : PyValue) : Result Q :=
  match value with
  | PyStr s =>
      if startswith s "0x" then
        n <- int_base16 s ;;
        Ok (inject_Z n / inject_Z wei_per_eth)%Q
      else Ok 0%Q
  | PyInt n => Ok (inject_Z n / inject_Z wei_per_eth)%Q
  | PyBool b => Ok (inject_Z (if b then 1 else 0) / inject_Z wei_per_eth)%Q
  | PyFloat x => Ok (x / inject_Z wei_per_eth)%Q
  | PyNone | PyList | PyDict => Ok 0%Q
  end.

Definition value_column (tx_value : option PyValue) : Result Q :=
  safe_eth_conversion (get_value tx_value).

End Conversion.

End ModifyTransactions.

(** ** [pump_n_dump.py] *)

Module PumpNDump.

(** The columns of [transactions_df] the detector reads.  [tx_value] is the
    raw JSON value kept by [flatten_transaction_record]; [tx_token_type] is
    the address of the first log of the receipt, [None] without logs. *)
Record Flattened : Type := {
  f_block_number : Z;
  f_tx_hash : string;
  f_tx_value : PyValue;
  f_tx_token_type : option string
}.

Record Transaction : Type := {
  block_number : Z;
  tx_hash : string;
  tx_value_eth : option Q;
  tx_token_type : option string
}.

(** *** [transactions_df["tx_value"] / 1e10], element by element.

    A missing value is [NaN] and stays [NaN]; a string or a container in the
    column makes the division raise. *)
Definition value_divisor : Z := 10 ^ 10.

Definition tx_value_eth_of (tx_value : PyValue) : Result (option Q) :=
  match tx_value with
  | PyInt n => Ok (Some (inject_Z n / inject_Z value_divisor)%Q)
  | PyFloat x => Ok (Some (x / inject_Z value_divisor)%Q)
  | PyBool b => Ok (Some (inject_Z (if b then 1 else 0) / inject_Z value_divisor)%Q)
  | PyNone => Ok None
  | PyStr _ | PyList | PyDict => Raise TypeError
  end.

Definition with_value_eth (f : Flattened) : Result Transaction :=
  v <- tx_value_eth_of (f_tx_value f) ;;
  Ok {| block_number := f_block_number f;
        tx_hash := f_tx_hash f;
        tx_value_eth := v;
        tx_token_type := f_tx_token_type f |}.

Fixpoint divide_column (df : list Flattened) : Result (list Transaction) :=
  match df with
  | [] => Ok []
  | f :: df' =>
      t <- with_value_eth f ;;
      ts <- divide_column df' ;;
      Ok (t :: ts)
  end.

(** A frame built from no record has no column at all, and
    [transactions_df["tx_value"]] raises [KeyError]; with one record or more
    the column is there, [flatten_transaction_record] sets the key always. *)
Definition add_tx_value_eth (df : list Flattened) : Result (list Transaction) :=
  match df with
  | [] => Raise KeyError
  | _ :: _ => divide_column df
  end.

(** *** [sort_values(by="block_number")]

    Modelled as a stable insertion sort; pandas leaves the order of rows with
    equal block numbers unspecified. *)
Fixpoint insert_by_block (t : Transaction) (df : list Transaction) : list Transaction :=
  match df with
  | [] => [t]
  | u :: df' =>
      if block_number t <=? block_number u then t :: df
      else u :: insert_by_block t df'
  end.

Definition sort_values (df : list Transaction) : list Transaction :=
  fold_right insert_by_block [] df.

(** *** The whale filter [df[df["tx_value_eth"] < whale_cap]]

    A comparison with [NaN] is false, so rows without a value are dropped
    too. *)
Definition whale_cap : Q := 500.

Definition Qltb (x y : Q) : bool :=
  match (x ?= y)%Q with
  | Lt => true
  | _ => false
  end.

Definition below_whale_cap (t : Transaction) : bool :=
  match tx_value_eth t with
  | Some v => Qltb v whale_cap
  | None => false
  end.

(** *** The [interval] column.  [Z.div] is Python's [//] for a non-zero
    divisor; a zero [interval_blocks] is outside the model. *)
Definition interval_of (interval_blocks bn : Z) : Z := bn / interval_blocks + 1.

Record Row : Type := {
  row_tx : Transaction;
  interval : Z
}.

Definition add_interval (interval_blocks : Z) (df : list Transaction) : list Row :=
  map (fun t => {| row_tx := t; interval := interval_of interval_blocks (block_number t) |}) df.

(** The table the rest of the function works on: the name [transactions_df]
    is rebound to the sorted, whale-filtered frame with its new column. *)
Definition filtered_table (interval_blocks : Z) (df : list Transaction) : list Row :=
  add_interval interval_blocks (filter below_whale_cap (sort_values df)).

(** *** [groupby(["interval", "tx_token_type"])["tx_value_eth"].sum().reset_index()]

    Keys come out sorted; rows whose token is missing are dropped by
    [groupby]; a group's values are added in row order. *)
Record Aggregate : Type := {
  agg_interval : Z;
  agg_token_type : string;
  agg_tx_value_eth : Q
}.

Definition key_compare (i1 : Z) (t1 : string) (i2 : Z) (t2 : string) : comparison :=
  match i1 ?= i2 with
  | Eq => String.compare t1 t2
  | c => c
  end.

Fixpoint add_to_sums (i : Z) (tok : string) (v : Q) (sums : list Aggregate) : list Aggregate :=
  match sums with
  | [] => [ {| agg_interval := i; agg_token_type := tok; agg_tx_value_eth := v |} ]
  | a :: sums' =>
      match key_compare i tok (agg_interval a) (agg_token_type a) with
      | Lt => {| agg_interval := i; agg_token_type := tok; agg_tx_value_eth := v |} :: sums
      | Eq => {| agg_interval := i; agg_token_type := tok;
                 agg_tx_value_eth := (agg_tx_value_eth a + v)%Q |} :: sums'
      | Gt => a :: add_to_sums i tok v sums'
      end
  end.

Definition value_or_zero (v : option Q) : Q :=
  match v with
  | Some x => x
  | None => 0%Q
  end.

Definition groupby_sum (table : list Row) : list Aggregate :=
  fold_left
    (fun sums r =>
       match tx_token_type (row_tx r) with
       | Some tok => add_to_sums (interval r) tok (value_or_zero (tx_value_eth (row_tx r))) sums
       | None => sums
       end)
    table [].

Definition interval_sums (interval_blocks : Z) (df : list Transaction) : list Aggregate :=
  groupby_sum (filtered_table interval_blocks df).

(** *** [interval_sums.groupby("tx_token_type")]: the partitions, by token,
    each in the row order of [interval_sums]. *)
Fixpoint add_to_group (a : Aggregate) (grouped : list (string * list Aggregate))
  : list (string * list Aggregate) :=
  match grouped with
  | [] => [(agg_token_type a, [a])]
  | (t, g) :: grouped' =>
      match String.compare (agg_token_type a) t with
      | Lt => (agg_token_type a, [a]) :: grouped
      | Eq => (t, g ++ [a]) :: grouped'
      | Gt => (t, g) :: add_to_group a grouped'
      end
  end.

Definition groupby_token (sums : list Aggregate) : list (string * list Aggregate) :=
  fold_left (fun grouped a => add_to_group a grouped) sums [].

(** *** [group.iloc[k]]: positions from 0, negative ones from the end,
    [IndexError] outside. *)
Definition iloc {A : Type} (group : list A) (k : Z) : Result A :=
  let n := Z.of_nat (List.length group) in
  let pos := if 0 <=? k then k else n + k in
  if (0 <=? pos) && (pos <? n) then
    match nth_error group (Z.to_nat pos) with
    | Some a => Ok a
    | None => Raise IndexError
    end
  else Raise IndexError.

(** [range(a, b)] *)
Definition range (a b : Z) : list Z :=
  map (fun k => a + Z.of_nat k) (seq 0 (Z.to_nat (b - a))).

Fixpoint for_each {A S : Type} (body : S -> A -> Result S) (xs : list A) (s : S) : Result S :=
  match xs with
  | [] => Ok s
  | x :: xs' => s' <- body s x ;; for_each body xs' s'
  end.

(** *** The detector loop *)
Record Event : Type := {
  ev_interval : Z;
  ev_token_type : string;
  current_interval_sum : Q;
  previous_interval_sum : Q;
  difference : Q
}.

(** [(pump_intervals, dump_intervals)] *)
Definition Events : Type := (list Event * list Event)%type.

Definition detect_position (pump_threshold_value : Q) (pump_threshold_interval : Z)
    (token_type : string) (group : list Aggregate) (acc : Events) (i : Z) : Result Events :=
  cur <- iloc group (i - 1) ;;
  prev <- iloc group (i - pump_threshold_interval) ;;
  let current := agg_tx_value_eth cur in
  let previous := agg_tx_value_eth prev in
  let diff := (current - previous)%Q in
  let ev := {| ev_interval := agg_interval cur;
               ev_token_type := token_type;
               current_interval_sum := current;
               previous_interval_sum := previous;
               difference := diff |} in
  if Qltb pump_threshold_value diff then Ok (fst acc ++ [ev], snd acc)
  else if Qltb diff (- pump_threshold_value)%Q then Ok (fst acc, snd acc ++ [ev])
  else Ok acc.

Definition detect_group (pump_threshold_value : Q) (pump_threshold_interval : Z)
    (acc : Events) (tg : string * list Aggregate) : Result Events :=
  for_each (detect_position pump_threshold_value pump_threshold_interval (fst tg) (snd tg))
           (range pump_threshold_interval (Z.of_nat (List.length (snd tg)) + 1))
           acc.

Definition detect_groups (pump_threshold_value : Q) (pump_threshold_interval : Z)
    (grouped : list (string * list Aggregate)) : Result Events :=
  for_each (detect_group pump_threshold_value pump_threshold_interval) grouped ([], []).

(** *** The rows printed for a flagged interval *)
Definition token_is (tok : option string) (token_type : string) : bool :=
  match tok with
  | Some t => String.eqb t token_type
  | None => false
  end.

Definition relevant_transactions (table : list Row) (ev : Event) : list Row :=
  filter (fun r => (ev_interval ev - 2 <=? interval r)
                   && (interval r <=? ev_interval ev)
                   && token_is (tx_token_type (row_tx r)) (ev_token_type ev))
         table.

Definition details (table : list Row) (evs : list Event) : list (Event * list Row) :=
  map (fun ev => (ev, relevant_transactions table ev)) evs.

(** *** [detect_pump_and_dump_whale_not_included]: the returned pair, and
    what it prints for the pumps and for the dumps. *)
Record Report : Type := {
  pump_intervals : list Event;
  dump_intervals : list Event;
  pump_details : list (Event * list Row);
  dump_details : list (Event * list Row)
}.

Definition detect_pump_and_dump_whale_not_included (transactions_df : list Transaction)
    (pump_threshold_value : Q) (pump_threshold_interval : Z) (interval_blocks : Z)
  : Result Report :=
  let table := filtered_table interval_blocks transactions_df in
  let sums := groupby_sum table in
  let grouped := groupby_token sums in
  evs <- detect_groups pump_threshold_value pump_threshold_interval grouped ;;
  Ok {| pump_intervals := fst evs;
        dump_intervals := snd evs;
        pump_details := details table (fst evs);
        dump_details := details table (snd evs) |}.

End PumpNDump.

(** ** [split_data.py] *)

Module SplitData.

(** The input is the text of the file as the text layer hands it over; the
    loop [for line in infile] sees it cut after every newline. *)
Definition newline : ascii := "010"%char.

Fixpoint split_lines (text : string) : list string :=
  match text with
  | EmptyString => []
  | String c text' =>
      if Ascii.eqb c newline then String c EmptyString :: split_lines text'
      else match split_lines text' with
           | [] => [String c EmptyString]
           | line :: rest => String c line :: rest
           end
  end.

(** [len(line.encode('utf-8'))] *)
Definition line_size (line : string) : Z := Z.of_nat (String.length line).

(** The variables of the loop, and the files closed so far: the file
    [f"{output_prefix}{k}.jsonl"] is kept as the pair of [k] and its
    content. *)
Record State : Type := {
  chunk_index : Z;
  current_chunk_size : Z;
  outfile : string;
  closed : list (Z * string)
}.

Definition initial : State :=
  {| chunk_index := 1; current_chunk_size := 0; outfile := EmptyString; closed := [] |}.

Definition start_new_file (st : State) : State :=
  {| chunk_index := chunk_index st + 1;
     current_chunk_size := 0;
     outfile := EmptyString;
     closed := closed st ++ [(chunk_index st, outfile st)] |}.

Definition write_line (line : string) (st : State) : State :=
  {| chunk_index := chunk_index st;
     current_chunk_size := current_chunk_size st + line_size line;
     outfile := outfile st ++ line;
     closed := closed st |}.

Definition step (chunk_size : Z) (st : State) (line : string) : State :=
  if current_chunk_size st + line_size line >? chunk_size
  then write_line line (start_new_file st)
  else write_line line st.

Definition close_last (st : State) : list (Z * string) :=
  closed st ++ [(chunk_index st, outfile st)].

(** The files left behind, in the order they were opened. *)
Definition split_jsonl (text : string) (chunk_size : Z) : list (Z * string) :=
  close_last (fold_left (step chunk_size) (split_lines text) initial).

End SplitData.

(** ** Vocabulary of the properties *)

Module Sums.
Import PumpNDump.

(** The aggregate at a position of a partition, positions counted from 1. *)
Definition at_position (group : list Aggregate) (i : Z) : option Aggregate :=
  if 1 <=? i then nth_error group (Z.to_nat (i - 1)) else None.

(** The comparison made for position [i]: the aggregate there against the one
    at position [previous]. *)
Definition comparison_at (token_type : string) (group : list Aggregate) (i previous : Z)
  : option Event :=
  match at_position group i, at_position group previous with
  | Some cur, Some prev =>
      Some {| ev_interval := agg_interval cur;
              ev_token_type := token_type;
              current_interval_sum := agg_tx_value_eth cur;
              previous_interval_sum := agg_tx_value_eth prev;
              difference := (agg_tx_value_eth cur - agg_tx_value_eth prev)%Q |}
  | _, _ => None
  end.

(** The window that ends at position [i]: the aggregate there compared with
    the one [lookback - 1] places before it. *)
Definition window (token_type : string) (group : list Aggregate) (lookback i : Z)
  : option Event :=
  comparison_at token_type group i (i - lookback + 1).

Definition is_pump (threshold : Q) (e : Event) : bool := Qltb threshold (difference e).
Definition is_dump (threshold : Q) (e : Event) : bool := Qltb (difference e) (- threshold).

(** A transaction at or above the cap. *)
Definition is_whale (t : Transaction) : bool :=
  match tx_value_eth t with
  | Some v => Qle_bool whale_cap v
  | None => false
  end.

(** Rows in ascending order of block number. *)
Definition block_le (t u : Transaction) : Prop := block_number t <= block_number u.

Definition sorted_by_block (df : list Transaction) : Prop :=
  Sorted.StronglySorted block_le df.

(** The row a transaction becomes once the [interval] column is there. *)
Definition row_of (interval_blocks : Z) (t : Transaction) : Row :=
  {| row_tx := t; interval := interval_of interval_blocks (block_number t) |}.

(** The text that a sequence of lines makes. *)
Definition join (parts : list string) : string :=
  fold_right String.append EmptyString parts.

(** The files closed so far hold the groups of lines [groups], one group per
    file and numbered from 1, and the open file holds the lines [cur]. *)
Definition holds (st : SplitData.State) (groups : list (list string)) (cur : list string)
  : Prop :=
  map snd (SplitData.closed st) = map join groups
  /\ map fst (SplitData.closed st) = map Z.of_nat (seq 1 (List.length groups))
  /\ SplitData.chunk_index st = Z.of_nat (S (List.length groups))
  /\ SplitData.outfile st = join cur.

(** A partition made of the given sums, at the given intervals. *)
Definition partition_of (token_type : string) (rows : list (Z * Q)) : list Aggregate :=
  map (fun r => {| agg_interval := fst r; agg_token_type := token_type;
                   agg_tx_value_eth := snd r |}) rows.

End Sums.

(** ** Sample data *)

Module Samples.
Import PumpNDump Sums.

(** Four consecutive intervals of one token, a large sum first. *)
Definition falling : list Aggregate :=
  partition_of "T" [(1, 3000%Q); (2, 100%Q); (3, 100%Q); (4, 100%Q)].

(** Two aggregates only. *)
Definition short : list Aggregate :=
  partition_of "S" [(1, 100%Q); (2, 9000%Q)].

(** A flattened record that moves one ether, 10^18 wei. *)
Definition one_ether_record : Flattened :=
  {| f_block_number := 0; f_tx_hash := "h"; f_tx_value := PyInt (10 ^ 18);
     f_tx_token_type := Some "T"%string |}.

(** A transaction with a value and a token. *)
Definition transfer (bn : Z) (hash : string) (v : Q) (tok : string) : Transaction :=
  {| block_number := bn; tx_hash := hash; tx_value_eth := Some v;
     tx_token_type := Some tok |}.

(** A run in which one token moves in two intervals and a transfer above
    the cap sits in the second one. *)
Definition large_transfer : Transaction := transfer 60 "c" 600 "T".

Definition run_with_whale : list Transaction :=
  [large_transfer; transfer 55 "b" 20 "T"; transfer 3 "a" 1 "T"].

End Samples.

(** ** [flatten_transaction_record] and [load_transactions_and_logs] *)

Module Records.

(** A value as [json.loads] returns it.  A dictionary is kept as the list of
    its items; [lookup] takes the first item with the key. *)
#[warnings="-register-all"]
Inductive Json : Type :=
| JNull
| JBool (b : bool)
| JInt (n : Z)
| JFloat (x : Q)
| JStr (s : string)
| JList (items : list Json)
| JDict (items : list (string * Json)).

Inductive Exc : Type :=
| AttributeError
| KeyError
| IndexError
| TypeError
| JSONDecodeError.

Inductive Try (A : Type) : Type :=
| Done (a : A)
| Fail (e : Exc).

Arguments Done {A} a.
Arguments Fail {A} e.

Definition and_then {A B : Type} (m : Try A) (k : A -> Try B) : Try B :=
  match m with
  | Done a => k a
  | Fail e => Fail e
  end.

Notation "x <~ m ;; k" := (and_then m (fun x => k))
  (at level 61, m at next level, right associativity).

Fixpoint lookup (items : list (string * Json)) (key : string) : option Json :=
  match items with
  | [] => None
  | (k, v) :: items' => if String.eqb k key then Some v else lookup items' key
  end.

(** [o.get(key, default)]: only a dictionary has the method. *)
Definition get (o : Json) (key : string) (default : Json) : Try Json :=
  match o with
  | JDict items =>
      Done (match lookup items key with
            | Some v => v
            | None => default
            end)
  | _ => Fail AttributeError
  end.

(** [if logs:] *)
Definition truthy (v : Json) : bool :=
  match v with
  | JNull => false
  | JBool b => b
  | JInt n => negb (n =? 0)
  | JFloat x => negb (Qeq_bool x 0)
  | JStr s => negb (String.eqb s EmptyString)
  | JList items => match items with [] => false | _ :: _ => true end
  | JDict items => match items with [] => false | _ :: _ => true end
  end.

(** [logs[0]]: the first item of a list, the first character of a string; a
    dictionary has no key [0]; the other values cannot be indexed. *)
Definition first_item (v : Json) : Try Json :=
  match v with
  | JList (x :: _) => Done x
  | JList [] => Fail IndexError
  | JStr (String c _) => Done (JStr (String c EmptyString))
  | JStr EmptyString => Fail IndexError
  | JDict _ => Fail KeyError
  | JNull | JBool _ | JInt _ | JFloat _ => Fail TypeError
  end.

(** [for log in logs]: the items of a list, the characters of a string, the
    keys of a dictionary; [TypeError] for the rest. *)
Definition iterate (v : Json) : Try (list Json) :=
  match v with
  | JList items => Done items
  | JStr s => Done (map (fun c => JStr (String c EmptyString)) (list_ascii_of_string s))
  | JDict items => Done (map (fun kv => JStr (fst kv)) items)
  | JNull | JBool _ | JInt _ | JFloat _ => Fail TypeError
  end.

Record Flat : Type := {
  block_number : Json;
  block_timestamp : Json;
  tx_hash : Json;
  tx_from : Json;
  tx_to : Json;
  tx_nonce : Json;
  tx_value : Json;
  tx_gas : Json;
  tx_gasPrice : Json;
  tx_input : Json;
  tx_chainId : Json;
  rcpt_status : Json;
  rcpt_gasUsed : Json;
  rcpt_contractAddress : Json;
  tx_token_type : Json
}.

Module LogEntry.
Record t : Type := {
  tx_hash : Json;
  block_number : Json;
  logIndex : Json;
  address : Json;
  data : Json;
  removed : Json;
  topics : Json
}.
End LogEntry.

Definition log_entry (record tx log : Json) : Try LogEntry.t :=
  h <~ get tx "hash" JNull ;;
  bn <~ get record "block_number" JNull ;;
  li <~ get log "logIndex" JNull ;;
  ad <~ get log "address" JNull ;;
  da <~ get log "data" JNull ;;
  re <~ get log "removed" JNull ;;
  tp <~ get log "topics" JNull ;;
  Done {| LogEntry.tx_hash := h; LogEntry.block_number := bn; LogEntry.logIndex := li;
          LogEntry.address := ad; LogEntry.data := da; LogEntry.removed := re;
          LogEntry.topics := tp |}.

Fixpoint log_entries (record tx : Json) (logs : list Json) : Try (list LogEntry.t) :=
  match logs with
  | [] => Done []
  | log :: logs' =>
      e <~ log_entry record tx log ;;
      es <~ log_entries record tx logs' ;;
      Done (e :: es)
  end.

Definition flatten_transaction_record (record : Json) : Try (Flat * list LogEntry.t) :=
  bn <~ get record "block_number" JNull ;;
  ts <~ get record "block_timestamp" JNull ;;
  tx <~ get record "transaction" (JDict []) ;;
  h <~ get tx "hash" JNull ;;
  fr <~ get tx "from" JNull ;;
  to <~ get tx "to" JNull ;;
  no <~ get tx "nonce" JNull ;;
  va <~ get tx "value" JNull ;;
  ga <~ get tx "gas" JNull ;;
  gp <~ get tx "gasPrice" JNull ;;
  inp <~ get tx "input" JNull ;;
  ci <~ get tx "chainId" JNull ;;
  rcpt <~ get record "receipt" (JDict []) ;;
  st <~ get rcpt "status" JNull ;;
  gu <~ get rcpt "gasUsed" JNull ;;
  ca <~ get rcpt "contractAddress" JNull ;;
  logs <~ get rcpt "logs" (JList []) ;;
  tok <~ (if truthy logs
          then (l0 <~ first_item logs ;; get l0 "address" JNull)
          else Done JNull) ;;
  items <~ iterate logs ;;
  logs_list <~ log_entries record tx items ;;
  Done ({| block_number := bn; block_timestamp := ts; tx_hash := h; tx_from := fr;
           tx_to := to; tx_nonce := no; tx_value := va; tx_gas := ga;
           tx_gasPrice := gp; tx_input := inp; tx_chainId := ci; rcpt_status := st;
           rcpt_gasUsed := gu; rcpt_contractAddress := ca; tx_token_type := tok |},
        logs_list).

(** [line.strip()], on byte strings with the ASCII white space. *)
Fixpoint lstrip (s : string) : string :=
  match s with
  | EmptyString => EmptyString
  | String c s' => if ModifyTransactions.is_space c then lstrip s' else s
  end.

Fixpoint rstrip (s : string) : string :=
  match s with
  | EmptyString => EmptyString
  | String c s' =>
      match rstrip s' with
      | EmptyString => if ModifyTransactions.is_space c then EmptyString
                       else String c EmptyString
      | r => String c r
      end
  end.

Definition strip (s : string) : string := rstrip (lstrip s).

Section Load.

(** [json.loads], which raises on a text that is not JSON. *)
Variable loads : string -> Try Json.

Fixpoint load_lines (lines : list string) (all_tx : list Flat)
    (all_logs : list LogEntry.t) : Try (list Flat * list LogEntry.t) :=
  match lines with
  | [] => Done (all_tx, all_logs)
  | line :: lines' =>
      let line := strip line in
      if String.eqb line EmptyString then load_lines lines' all_tx all_logs
      else
        record <~ loads line ;;
        r <~ flatten_transaction_record record ;;
        load_lines lines' (all_tx ++ [fst r]) (all_logs ++ snd r)
  end.

Definition load_transactions_and_logs (text : string)
  : Try (list Flat * list LogEntry.t) :=
  load_lines (SplitData.split_lines text) [] [].

End Load.

End Records.

(** ** Vocabulary of the further properties *)

Module Chunks.
Import SplitData Sums.

(** The size in bytes of a group of lines. *)
Definition total (g : list string) : Z := line_size (join g).

(** A group respects the budget, or is one line on its own. *)
Definition fits (chunk_size : Z) (g : list string) : Prop :=
  total g <= chunk_size \/ exists l, g = [l].

(** Every group but the first starts with the line that did not fit in the
    group before it. *)
Fixpoint greedy (chunk_size : Z) (groups : list (list string)) : Prop :=
  match groups with
  | g :: rest =>
      match rest with
      | g' :: _ =>
          (exists l tl, g' = l :: tl /\ total g + line_size l > chunk_size)
          /\ greedy chunk_size rest
      | [] => True
      end
  | [] => True
  end.

(** What the loop keeps true: [holds], the size counter, the budget and the
    greedy filling. *)
Definition filled (chunk_size : Z) (st : State) (groups : list (list string))
    (cur : list string) : Prop :=
  holds st groups cur
  /\ current_chunk_size st = total cur
  /\ greedy chunk_size (groups ++ [cur])
  /\ (0 <= chunk_size -> Forall (fits chunk_size) (groups ++ [cur])).

End Chunks.

Module MoreSamples.
Import SplitData.

Definition nl : string := String newline EmptyString.

(** Four lines, the third one empty but for its newline, the last one
    without a newline. *)
Definition four_lines : string := ("ab" ++ nl ++ "cd" ++ nl ++ nl ++ "e")%string.

(** A first line of eight bytes and three short ones. *)
Definition long_first_line : string :=
  ("abcdefg" ++ nl ++ "cd" ++ nl ++ nl ++ "e")%string.

End MoreSamples.

Module Tables.
Import PumpNDump Sums.

(** The order of the keys of [interval_sums]: interval first, then token. *)
Definition key_lt (a b : Aggregate) : Prop :=
  key_compare (agg_interval a) (agg_token_type a) (agg_interval b) (agg_token_type b) = Lt.

Definition sorted_by_key (sums : list Aggregate) : Prop := StronglySorted key_lt sums.

(** The sum recorded for a key, if the key is in the table. *)
Fixpoint lookup_sum (i : Z) (tok : string) (sums : list Aggregate) : option Q :=
  match sums with
  | [] => None
  | a :: sums' =>
      if (agg_interval a =? i) && String.eqb (agg_token_type a) tok
      then Some (agg_tx_value_eth a)
      else lookup_sum i tok sums'
  end.

(** Values added one after the other, the first one as it is. *)
Definition add_value (acc : option Q) (v : Q) : option Q :=
  Some (match acc with
        | Some s => (s + v)%Q
        | None => v
        end).

Definition running_sum (start : option Q) (vs : list Q) : option Q :=
  fold_left add_value vs start.

(** The rows of a key, and their values in row order. *)
Definition has_key (i : Z) (tok : string) (r : Row) : bool :=
  (interval r =? i) && token_is (tx_token_type (row_tx r)) tok.

Definition values_of (i : Z) (tok : string) (table : list Row) : list Q :=
  map (fun r => value_or_zero (tx_value_eth (row_tx r))) (filter (has_key i tok) table).

(** The partitions, in the order of their tokens. *)
Definition token_lt (x y : string * list Aggregate) : Prop :=
  String.compare (fst x) (fst y) = Lt.

Fixpoint group_of (tok : string) (grouped : list (string * list Aggregate))
  : list Aggregate :=
  match grouped with
  | [] => []
  | (t, g) :: grouped' => if String.eqb t tok then g else group_of tok grouped'
  end.

Definition has_token (tok : string) (a : Aggregate) : bool :=
  String.eqb (agg_token_type a) tok.

Definition interval_lt (a b : Aggregate) : Prop := agg_interval a < agg_interval b.

(** An event built from two aggregates of the partition of its token. *)
Definition from_partition (grouped : list (string * list Aggregate)) (e : Event) : Prop :=
  exists g cur prev,
    In (ev_token_type e, g) grouped
    /\ In cur g /\ In prev g
    /\ ev_interval e = agg_interval cur
    /\ current_interval_sum e = agg_tx_value_eth cur
    /\ previous_interval_sum e = agg_tx_value_eth prev
    /\ difference e = (agg_tx_value_eth cur - agg_tx_value_eth prev)%Q.

(** Rows in ascending order of block number. *)
Definition row_block_le (r r' : Row) : Prop :=
  block_number (row_tx r) <= block_number (row_tx r').


End Tables.

Module Shapes.
Import PumpNDump.

(** A raw value the division by [1e10] accepts: a number, a boolean or a
    missing value. *)
Definition divisible (v : PyValue) : bool :=
  match v with
  | PyInt _ | PyFloat _ | PyBool _ | PyNone => true
  | PyStr _ | PyList | PyDict => false
  end.

(** A raw value that is a number; a boolean counts as one. *)
Definition numeric (v : PyValue) : bool :=
  match v with
  | PyInt _ | PyFloat _ | PyBool _ => true
  | _ => false
  end.

(** A raw value that stays within the range of a double when it is turned
    into a float: an integer below 2^1023 in size, a string of at most 250
    characters. *)
Definition within_double (v : PyValue) : bool :=
  match v with
  | PyInt n => Z.abs n <? 2 ^ 1023
  | PyStr s => Nat.leb (String.length s) 250
  | _ => true
  end.

(** A text of ASCII characters only. *)
Fixpoint ascii_only (s : string) : bool :=
  match s with
  | EmptyString => true
  | String c s' => (Z.of_nat (nat_of_ascii c) <? 128) && ascii_only s'
  end.

(** The entry of a dictionary under a key, or the default. *)
Definition child (items : list (string * Records.Json)) (key : string)
    (default : Records.Json) : Records.Json :=
  match Records.lookup items key with
  | Some v => v
  | None => default
  end.

(** The field of a value that is a dictionary; null for a missing key. *)
Definition field (v : Records.Json) (key : string) : Records.Json :=
  match v with
  | Records.JDict items => child items key Records.JNull
  | _ => Records.JNull
  end.

Definition is_dict (v : Records.Json) : bool :=
  match v with
  | Records.JDict _ => true
  | _ => false
  end.

(** What stands under ["transaction"], under ["receipt"] and under the
    ["logs"] of the receipt, with the defaults of the code for missing
    keys. *)
Definition transaction_of (items : list (string * Records.Json)) : Records.Json :=
  child items "transaction" (Records.JDict []).

Definition receipt_of (items : list (string * Records.Json)) : Records.Json :=
  child items "receipt" (Records.JDict []).

Definition logs_of (items : list (string * Records.Json)) : Records.Json :=
  match receipt_of items with
  | Records.JDict ritems => child ritems "logs" (Records.JList [])
  | _ => Records.JList []
  end.

(** A record as the loader expects it: a dictionary whose transaction and
    receipt, when present, are dictionaries and whose logs, when present, are
    a list of dictionaries. *)
Definition well_formed (items : list (string * Records.Json)) (logs : list Records.Json)
  : Prop :=
  is_dict (transaction_of items) = true
  /\ is_dict (receipt_of items) = true
  /\ logs_of items = Records.JList logs
  /\ Forall (fun l => is_dict l = true) logs.

(** A value that is neither a list, a string nor a dictionary. *)
Definition scalar (v : Records.Json) : bool :=
  match v with
  | Records.JNull | Records.JBool _ | Records.JInt _ | Records.JFloat _ => true
  | _ => false
  end.

(** A line that [strip] empties. *)
Definition blank (line : string) : bool := ModifyTransactions.all_space line.

End Shapes.

Module LoadSamples.
Import PumpNDump.

(** The decimal digits of two scripts, the Arabic-Indic and the fullwidth
    ones, and the bytes of [0x] followed by the fullwidth digit one. *)
Definition two_scripts (cp : Z) : option Z :=
  if (1632 <=? cp) && (cp <=? 1641) then Some (cp - 1632)
  else if (65296 <=? cp) && (cp <=? 65305) then Some (cp - 65296)
  else None.

Definition fullwidth_one : string :=
  String "0" (String "x" (String (ascii_of_nat 239) (String (ascii_of_nat 188)
    (String (ascii_of_nat 145) EmptyString)))).

(** A record with one log, and a parser that knows one line only. *)
Definition one_log_items : list (string * Records.Json) :=
  [("block_number"%string, Records.JInt 7);
   ("transaction"%string,
    Records.JDict [("hash"%string, Records.JStr "0xabc");
                   ("value"%string, Records.JStr "0x10")]);
   ("receipt"%string,
    Records.JDict [("logs"%string,
                    Records.JList [Records.JDict [("address"%string,
                                                   Records.JStr "0xtoken")]])])].

Definition null_transaction_items : list (string * Records.Json) :=
  [("block_number"%string, Records.JInt 7); ("transaction"%string, Records.JNull)].

Definition null_logs_items : list (string * Records.Json) :=
  [("receipt"%string, Records.JDict [("logs"%string, Records.JNull)])].

Definition sample_loads (line : string) : Records.Try Records.Json :=
  if String.eqb line "{}" then Records.Done (Records.JDict [])
  else Records.Fail Records.JSONDecodeError.

Definition two_records : string :=
  ("{}" ++ MoreSamples.nl ++ "  " ++ MoreSamples.nl ++ " {} " ++ MoreSamples.nl)%string.

Definition broken_text : string :=
  ("{}" ++ MoreSamples.nl ++ "{" ++ MoreSamples.nl)%string.

Definition hex_valued : list Flattened :=
  [ {| f_block_number := 0; f_tx_hash := "h0"; f_tx_value := PyInt 5;
       f_tx_token_type := None |};
    {| f_block_number := 1; f_tx_hash := "h1"; f_tx_value := PyStr "0x10";
       f_tx_token_type := None |} ].

Definition numeric_valued : list Flattened :=
  [ {| f_block_number := 0; f_tx_hash := "h0"; f_tx_value := PyInt 5;
       f_tx_token_type := None |};
    {| f_block_number := 1; f_tx_hash := "h1"; f_tx_value := PyFloat 2.5;
       f_tx_token_type := Some "T"%string |} ].

End LoadSamples.

(** ** The file behind the text: [open(input_path, 'r', encoding='utf-8')] *)

Module TextLayer.
Import SplitData.











End TextLayer.

Import ModifyTransactions PumpNDump SplitData Sums Samples.
Import Chunks MoreSamples Tables Shapes LoadSamples TextLayer.

(** * Properties *)

(** ** Intervals *)

Lemma interval_of_bounds (interval_blocks bn : Z) :
  0 < interval_blocks ->
  (interval_of interval_blocks bn - 1) * interval_blocks <= bn
  < interval_of interval_blocks bn * interval_blocks.
Proof.
  intros Hpos. unfold interval_of.
  pose proof (Z.div_mod bn interval_blocks ltac:(lia)) as Hdm.
  pose proof (Z.mod_pos_bound bn interval_blocks Hpos) as Hm.
  nia.
Qed.

Lemma interval_of_monotone (interval_blocks bn bn' : Z) :
  0 < interval_blocks -> bn <= bn' ->
  interval_of interval_blocks bn <= interval_of interval_blocks bn'.
Proof.
  intros Hpos Hle. unfold interval_of.
  pose proof (Z.div_le_mono bn bn' interval_blocks Hpos Hle). lia.
Qed.

(** C7. For a positive [interval_blocks] and a non-negative block number the
    interval is the floor of the quotient plus one (the block lies in the
    bucket that the interval names), it is at least 1, it never decreases when
    the block number grows, and with 50 blocks per interval the blocks 0, 49
    and 50 fall in the intervals 1, 1 and 2. *)
Theorem interval_id_floor_one_based_monotone (interval_blocks : Z) :
  0 < interval_blocks ->
  (forall bn, 0 <= bn ->
     interval_of interval_blocks bn = bn / interval_blocks + 1
     /\ (interval_of interval_blocks bn - 1) * interval_blocks <= bn
        < interval_of interval_blocks bn * interval_blocks
     /\ 1 <= interval_of interval_blocks bn)
  /\ interval_of interval_blocks 0 = 1
  /\ (forall bn bn', 0 <= bn -> bn <= bn' ->
        interval_of interval_blocks bn <= interval_of interval_blocks bn')
  /\ interval_of 50 0 = 1 /\ interval_of 50 49 = 1 /\ interval_of 50 50 = 2.
Proof.
  intros Hpos. split; [|split; [|split]].
  - intros bn Hbn. split; [reflexivity|]. split.
    + now apply interval_of_bounds.
    + unfold interval_of. pose proof (Z.div_pos bn interval_blocks Hbn Hpos). lia.
  - unfold interval_of. rewrite Z.div_0_l by lia. reflexivity.
  - intros bn bn' _ Hle. now apply interval_of_monotone.
  - repeat split.
Qed.

Lemma interval_id_floor_one_based_monotone_witness :
  0 < 50
  /\ (forall bn bn', 0 <= bn -> bn <= bn' -> interval_of 50 bn <= interval_of 50 bn').
Proof.
  split; [lia|].
  apply (interval_id_floor_one_based_monotone 50). lia.
Defined.

(** ** Value conversion *)

(** The conversion of [modify_transactions.py] divides by 10^18: an integer
    number of wei comes back from the result. *)
Lemma safe_eth_conversion_int (unicode_decimal : Z -> option Z) (n : Z) :
  exists v, safe_eth_conversion unicode_decimal (PyInt n) = Ok v
            /\ (v == inject_Z n / inject_Z (10 ^ 18))%Q
            /\ (v * inject_Z (10 ^ 18) == inject_Z n)%Q.
Proof.
  eexists. split; [reflexivity|]. split; [reflexivity|].
  unfold wei_per_eth. field. discriminate.
Qed.

(** C2. The detector's value column is the raw value divided by 10^10: one
    ether, 10^18 wei, becomes 10^8, not 1, and multiplying back by 10^18
    gives 10^26. *)
Theorem tx_value_eth_of_one_ether :
  exists v t,
    tx_value_eth_of (PyInt (10 ^ 18)) = Ok (Some v)
    /\ add_tx_value_eth [one_ether_record] = Ok [t]
    /\ tx_value_eth t = Some v
    /\ (v == 100000000)%Q
    /\ ~ (v == inject_Z (10 ^ 18) / inject_Z (10 ^ 18))%Q
    /\ (v * inject_Z (10 ^ 18) == inject_Z (10 ^ 26))%Q
    /\ ~ (v * inject_Z (10 ^ 18) == inject_Z (10 ^ 18))%Q.
Proof.
  do 2 eexists. split; [reflexivity|]. split; [reflexivity|].
  split; [reflexivity|]. split; [reflexivity|].
  split; [intros H; vm_compute in H; discriminate|].
  split; [reflexivity|].
  intros H; vm_compute in H; discriminate.
Qed.

(** The same for every integer value: the column is 10^8 times the value in
    ether. *)
Lemma tx_value_eth_of_int (n : Z) :
  exists v, tx_value_eth_of (PyInt n) = Ok (Some v)
            /\ (v == inject_Z (10 ^ 8) * (inject_Z n / inject_Z (10 ^ 18)))%Q.
Proof.
  eexists. split; [reflexivity|].
  unfold value_divisor.
  change (inject_Z (10 ^ 10)) with (inject_Z 10000000000).
  change (inject_Z (10 ^ 8)) with (inject_Z 100000000).
  change (inject_Z (10 ^ 18)) with (inject_Z 1000000000000000000).
  unfold Qeq, Qdiv, Qmult, Qinv, inject_Z. cbn [Qnum Qden]. lia.
Qed.

(** A string with the prefix [0x] that [int] accepts is converted like the
    number it denotes. *)
Lemma safe_eth_conversion_hex (unicode_decimal : Z -> option Z) (s : string) (n : Z) :
  startswith s "0x" = true -> int_base16 unicode_decimal s = Ok n ->
  safe_eth_conversion unicode_decimal (PyStr s)
  = safe_eth_conversion unicode_decimal (PyInt n).
Proof.
  intros Hp Hn. unfold safe_eth_conversion. rewrite Hp, Hn. reflexivity.
Qed.

(** Every value that is neither a number nor a string with the prefix [0x],
    and a missing value, is converted to 0. *)
Lemma safe_eth_conversion_other (unicode_decimal : Z -> option Z) (v : PyValue) :
  match v with
  | PyNone | PyList | PyDict => True
  | PyStr s => startswith s "0x" = false
  | _ => False
  end ->
  safe_eth_conversion unicode_decimal v = Ok 0%Q
  /\ value_column unicode_decimal None = Ok 0%Q.
Proof.
  destruct v; simpl; intros H; try contradiction; try (split; reflexivity).
  rewrite H. split; reflexivity.
Qed.

(** C9. A string with the prefix [0x] and no hexadecimal digit after it makes
    the conversion raise: the bare prefix and [0xzz] end in [ValueError]. *)
Theorem safe_eth_conversion_raises (unicode_decimal : Z -> option Z) :
  safe_eth_conversion unicode_decimal (PyStr "0x") = Raise ValueError
  /\ safe_eth_conversion unicode_decimal (PyStr "0xzz") = Raise ValueError.
Proof. split; reflexivity. Qed.

(** ** The detector loop *)

Lemma Qltb_lt (x y : Q) : Qltb x y = true <-> (x < y)%Q.
Proof.
  unfold Qltb. rewrite Qlt_alt. destruct (x ?= y)%Q; split; congruence.
Qed.

Lemma Qltb_exclusive (thr d : Q) :
  (0 <= thr)%Q -> Qltb thr d = true -> Qltb d (- thr) = false.
Proof.
  intros Hthr Hp. apply Qltb_lt in Hp.
  destruct (Qltb d (- thr)) eqn:Hd; [|reflexivity].
  apply Qltb_lt in Hd. lra.
Qed.

Lemma for_each_app {A S : Type} (body : S -> A -> Result S) (xs ys : list A) (s : S) :
  for_each body (xs ++ ys) s = (s' <- for_each body xs s ;; for_each body ys s').
Proof.
  revert s. induction xs as [|x xs IH]; intros s; simpl.
  - reflexivity.
  - destruct (body s x) as [s'|e]; simpl; [apply IH | reflexivity].
Qed.

Lemma in_range (a b i : Z) : In i (range a b) <-> a <= i < b.
Proof.
  unfold range. rewrite in_map_iff. split.
  - intros [k [<- Hk]]. apply in_seq in Hk. lia.
  - intros H. exists (Z.to_nat (i - a)). split; [lia|]. apply in_seq. lia.
Qed.

Lemma range_empty (a b : Z) : b <= a -> range a b = [].
Proof.
  intros H. unfold range. replace (Z.to_nat (b - a)) with 0%nat by lia. reflexivity.
Qed.

(** Inside the partition, [iloc] at [j - 1] is the aggregate at position [j]. *)
Lemma iloc_at_position (group : list Aggregate) (j : Z) :
  1 <= j <= Z.of_nat (List.length group) ->
  exists a, at_position group j = Some a /\ iloc group (j - 1) = Ok a.
Proof.
  intros Hj. unfold at_position, iloc.
  replace (1 <=? j) with true by (symmetry; apply Z.leb_le; lia).
  replace (0 <=? j - 1) with true by (symmetry; apply Z.leb_le; lia).
  replace ((0 <=? j - 1) && (j - 1 <? Z.of_nat (List.length group))) with true.
  2:{ symmetry. apply andb_true_iff. split; [apply Z.leb_le | apply Z.ltb_lt]; lia. }
  destruct (nth_error group (Z.to_nat (j - 1))) as [a|] eqn:Hn.
  - exists a. split; reflexivity.
  - apply nth_error_None in Hn. lia.
Qed.

Section Lookback.

Variable pump_threshold_value : Q.
Variable pump_threshold_interval : Z.
Variable token_type : string.
Variable group : list Aggregate.

Hypothesis lookback_positive : 1 <= pump_threshold_interval.
Hypothesis threshold_nonnegative : (0 <= pump_threshold_value)%Q.

Lemma detect_position_window (acc : Events) (i : Z) :
  pump_threshold_interval <= i <= Z.of_nat (List.length group) ->
  exists e, window token_type group pump_threshold_interval i = Some e
    /\ detect_position pump_threshold_value pump_threshold_interval token_type group acc i
       = Ok (fst acc ++ filter (is_pump pump_threshold_value) [e],
             snd acc ++ filter (is_dump pump_threshold_value) [e]).
Proof.
  intros Hi.
  destruct (iloc_at_position group i ltac:(lia)) as [cur [Hcur Hicur]].
  destruct (iloc_at_position group (i - pump_threshold_interval + 1) ltac:(lia))
    as [prev [Hprev Hiprev]].
  replace (i - pump_threshold_interval + 1 - 1) with (i - pump_threshold_interval)
    in Hiprev by lia.
  unfold window, comparison_at. rewrite Hcur, Hprev.
  eexists. split; [reflexivity|].
  unfold detect_position. rewrite Hicur, Hiprev. simpl.
  unfold is_pump, is_dump. simpl.
  destruct (Qltb pump_threshold_value
              (agg_tx_value_eth cur - agg_tx_value_eth prev)) eqn:Hp.
  - rewrite (Qltb_exclusive _ _ threshold_nonnegative Hp).
    rewrite app_nil_r. reflexivity.
  - destruct (Qltb (agg_tx_value_eth cur - agg_tx_value_eth prev) (- pump_threshold_value));
      rewrite ?app_nil_r; destruct acc; reflexivity.
Qed.

Lemma for_each_detect_position (positions : list Z) :
  (forall i, In i positions ->
     pump_threshold_interval <= i <= Z.of_nat (List.length group)) ->
  forall acc, exists evs,
    map (window token_type group pump_threshold_interval) positions = map Some evs
    /\ for_each (detect_position pump_threshold_value pump_threshold_interval
                   token_type group) positions acc
       = Ok (fst acc ++ filter (is_pump pump_threshold_value) evs,
             snd acc ++ filter (is_dump pump_threshold_value) evs).
Proof.
  induction positions as [|i positions IH]; intros Hin acc.
  - exists []. simpl. rewrite !app_nil_r. destruct acc. split; reflexivity.
  - destruct (detect_position_window acc i) as [e [He Hstep]].
    { apply Hin. now left. }
    destruct (IH (fun j Hj => Hin j (or_intror Hj))
                 (fst acc ++ filter (is_pump pump_threshold_value) [e],
                  snd acc ++ filter (is_dump pump_threshold_value) [e]))
      as [evs [Hevs Hrest]].
    exists (e :: evs). split.
    + simpl. now rewrite He, Hevs.
    + cbn [for_each]. rewrite Hstep. cbn [bind]. rewrite Hrest.
      cbn [fst snd]. rewrite <- !app_assoc.
      change (e :: evs) with ([e] ++ evs). now rewrite !filter_app.
Qed.

Lemma detect_group_windows (acc : Events) :
  exists evs,
    map (window token_type group pump_threshold_interval)
        (range pump_threshold_interval (Z.of_nat (List.length group) + 1))
    = map Some evs
    /\ detect_group pump_threshold_value pump_threshold_interval acc (token_type, group)
       = Ok (fst acc ++ filter (is_pump pump_threshold_value) evs,
             snd acc ++ filter (is_dump pump_threshold_value) evs).
Proof.
  unfold detect_group. cbn [fst snd].
  apply for_each_detect_position.
  intros i Hi. apply in_range in Hi. lia.
Qed.

End Lookback.

(** C1 (amended). With a lookback of at least 1 and a non-negative threshold,
    the detector visits the positions from [pump_threshold_interval] to [N] of
    a partition, counted from 1; at position [i] it compares the sum there
    with the sum at position [i - pump_threshold_interval + 1], the first of
    the [pump_threshold_interval] aggregates that end at [i].  It raises no
    error; the pumps are, in order, the comparisons whose difference exceeds
    the threshold, each at the interval of position [i]; the dumps are those
    whose difference is below the negated threshold; the other positions give
    no event. *)
Theorem lookback_window_classification
    (pump_threshold_value : Q) (pump_threshold_interval : Z)
    (token_type : string) (group : list Aggregate) :
  1 <= pump_threshold_interval ->
  (0 <= pump_threshold_value)%Q ->
  exists evs pumps dumps,
    map (window token_type group pump_threshold_interval)
        (range pump_threshold_interval (Z.of_nat (List.length group) + 1))
    = map Some evs
    /\ detect_group pump_threshold_value pump_threshold_interval ([], [])
         (token_type, group) = Ok (pumps, dumps)
    /\ pumps = filter (is_pump pump_threshold_value) evs
    /\ dumps = filter (is_dump pump_threshold_value) evs
    /\ forall e, In e evs ->
         (In e pumps <-> (pump_threshold_value < difference e)%Q)
         /\ (In e dumps <-> (difference e < - pump_threshold_value)%Q).
Proof.
  intros HL Hthr.
  destruct (detect_group_windows pump_threshold_value pump_threshold_interval
              token_type group HL Hthr ([], [])) as [evs [Hw Hd]].
  exists evs. do 2 eexists. split; [exact Hw|]. split; [exact Hd|].
  cbn [fst snd app]. split; [reflexivity|]. split; [reflexivity|].
  intros e He. rewrite !filter_In. unfold is_pump, is_dump. rewrite !Qltb_lt. tauto.
Qed.

Lemma lookback_window_classification_witness :
  exists evs pumps dumps,
    map (window "T" falling 3) (range 3 (Z.of_nat (List.length falling) + 1))
    = map Some evs
    /\ detect_group 2500 3 ([], []) ("T"%string, falling) = Ok (pumps, dumps)
    /\ pumps = filter (is_pump 2500) evs
    /\ dumps = filter (is_dump 2500) evs
    /\ forall e, In e evs ->
         (In e pumps <-> (2500 < difference e)%Q)
         /\ (In e dumps <-> (difference e < - (2500))%Q).
Proof.
  apply (lookback_window_classification 2500 3 "T" falling).
  - lia.
  - unfold Qle. simpl. lia.
Defined.

(** C1, as stated, fails: in the partition with the sums 3000, 100, 100, 100
    at the intervals 1 to 4, lookback 3 and threshold 2500, the sum at
    position 4 minus the sum at position 4 - 3 is -2900, below -2500, and the
    detector has no dump at the interval of position 4. *)
Lemma lookback_difference_counterexample :
  ~ (forall i cur prev pumps dumps,
       3 <= i <= Z.of_nat (List.length falling) ->
       at_position falling i = Some cur ->
       at_position falling (i - 3) = Some prev ->
       detect_group 2500 3 ([], []) ("T"%string, falling) = Ok (pumps, dumps) ->
       ((2500 < agg_tx_value_eth cur - agg_tx_value_eth prev)%Q
        <-> exists e, In e pumps /\ ev_interval e = agg_interval cur)
       /\ ((agg_tx_value_eth cur - agg_tx_value_eth prev < - (2500))%Q
           <-> exists e, In e dumps /\ ev_interval e = agg_interval cur)).
Proof.
  intros H.
  specialize (H 4 _ _ _ _ ltac:(simpl; lia) eq_refl eq_refl eq_refl).
  destruct H as [_ [Hdump _]].
  destruct Hdump as [e [He Hi]].
  - reflexivity.
  - destruct He as [<- | []]. discriminate Hi.
Qed.

(** C3 (amended). With lookback 3 and threshold 2500, a partition with the
    sums 3000, 100, 100, 100 yields no pump and exactly one dump; the dump is
    emitted at position 3, the comparison of position 3 with position 1, with
    the difference 100 - 3000 = -2900. *)
Theorem dump_example (token_type : string) (i1 i2 i3 i4 : Z) :
  let group := partition_of token_type
                 [(i1, 3000%Q); (i2, 100%Q); (i3, 100%Q); (i4, 100%Q)] in
  let dump := {| ev_interval := i3;
                 ev_token_type := token_type;
                 current_interval_sum := 100;
                 previous_interval_sum := 3000;
                 difference := (-2900)%Q |} in
  detect_group 2500 3 ([], []) (token_type, group) = Ok ([], [dump])
  /\ comparison_at token_type group 3 1 = Some dump
  /\ (difference dump == 100 - 3000)%Q.
Proof.
  cbv zeta. split; [|split]; reflexivity.
Qed.

(** C3, as stated, fails: at the intervals 1 to 4 the single dump is not at
    the interval of position 4. *)
Lemma dump_example_counterexample :
  ~ (exists pumps e,
       detect_group 2500 3 ([], []) ("T"%string, falling) = Ok (pumps, [e])
       /\ at_position falling 4
          = Some {| agg_interval := ev_interval e; agg_token_type := "T";
                    agg_tx_value_eth := 100 |}).
Proof.
  intros [pumps [e [Hd Hat]]].
  vm_compute in Hd. injection Hd as _ <-.
  vm_compute in Hat. discriminate Hat.
Qed.

(** C4. With lookback 3 and threshold 2500, a partition with the sums 100,
    100, 100, 3000 yields no dump and exactly one pump, at the interval of
    position 4, with the difference 3000 - 100 = 2900.  The loop visits the
    positions 3 and 4 only, and position 3 emits nothing. *)
Theorem pump_example (token_type : string) (i1 i2 i3 i4 : Z) :
  let group := partition_of token_type
                 [(i1, 100%Q); (i2, 100%Q); (i3, 100%Q); (i4, 3000%Q)] in
  let pump := {| ev_interval := i4;
                 ev_token_type := token_type;
                 current_interval_sum := 3000;
                 previous_interval_sum := 100;
                 difference := 2900%Q |} in
  detect_group 2500 3 ([], []) (token_type, group) = Ok ([pump], [])
  /\ (difference pump == 3000 - 100)%Q
  /\ (2500 < difference pump)%Q
  /\ option_map agg_interval (at_position group 4) = Some (ev_interval pump)
  /\ range 3 (Z.of_nat (List.length group) + 1) = [3; 4]
  /\ detect_position 2500 3 token_type group ([], []) 3 = Ok ([], []).
Proof.
  cbv zeta. repeat split; reflexivity.
Qed.

(** C8. A partition with fewer aggregates than [pump_threshold_interval]
    leaves the lists of events as they are and raises nothing, and the run
    over all partitions gives what it gives without that partition. *)
Theorem short_partition_no_event
    (pump_threshold_value : Q) (pump_threshold_interval : Z)
    (token_type : string) (group : list Aggregate) (acc : Events)
    (before after : list (string * list Aggregate)) :
  Z.of_nat (List.length group) < pump_threshold_interval ->
  detect_group pump_threshold_value pump_threshold_interval acc (token_type, group) = Ok acc
  /\ detect_groups pump_threshold_value pump_threshold_interval
       (before ++ (token_type, group) :: after)
     = detect_groups pump_threshold_value pump_threshold_interval (before ++ after).
Proof.
  intros Hshort.
  assert (Hg : forall acc', detect_group pump_threshold_value pump_threshold_interval acc'
                              (token_type, group) = Ok acc').
  { intros acc'. unfold detect_group. cbn [fst snd].
    rewrite range_empty by lia. reflexivity. }
  split; [apply Hg|].
  unfold detect_groups. rewrite !for_each_app.
  destruct (for_each (detect_group pump_threshold_value pump_threshold_interval)
              before ([], [])) as [s|e]; [|reflexivity].
  cbn [bind for_each]. rewrite Hg. reflexivity.
Qed.

Lemma short_partition_no_event_witness :
  detect_group 2500 3 ([], []) ("S"%string, short) = Ok ([], [])
  /\ detect_groups 2500 3 ([] ++ ("S"%string, short) :: [("T"%string, falling)])
     = detect_groups 2500 3 ([] ++ [("T"%string, falling)]).
Proof.
  apply (short_partition_no_event 2500 3 "S" short ([], []) [] [("T"%string, falling)]).
  simpl. lia.
Defined.

(** ** Sorting and the whale filter *)

Lemma insert_by_block_In (t u : Transaction) (df : list Transaction) :
  In u (insert_by_block t df) <-> u = t \/ In u df.
Proof.
  induction df as [|x df IH]; simpl.
  - intuition congruence.
  - destruct (block_number t <=? block_number x); simpl; rewrite ?IH; intuition congruence.
Qed.

Lemma sort_values_In (u : Transaction) (df : list Transaction) :
  In u (sort_values df) <-> In u df.
Proof.
  induction df as [|x df IH]; simpl.
  - reflexivity.
  - rewrite insert_by_block_In, IH. intuition congruence.
Qed.

Lemma insert_by_block_sorted (t : Transaction) (df : list Transaction) :
  sorted_by_block df -> sorted_by_block (insert_by_block t df).
Proof.
  unfold sorted_by_block.
  induction df as [|x df IH]; intros Hs; simpl.
  - constructor; constructor.
  - inversion Hs as [|? ? Hs' Hall]; subst.
    destruct (block_number t <=? block_number x) eqn:Hle.
    + apply Z.leb_le in Hle. constructor; [exact Hs|].
      constructor; [exact Hle|].
      eapply Forall_impl; [|exact Hall]. unfold block_le. intros; lia.
    + apply Z.leb_gt in Hle. constructor; [now apply IH|].
      apply Forall_forall. intros u Hu. apply insert_by_block_In in Hu.
      destruct Hu as [-> | Hu].
      * unfold block_le. lia.
      * rewrite Forall_forall in Hall. now apply Hall.
Qed.

Lemma sort_values_sorted (df : list Transaction) : sorted_by_block (sort_values df).
Proof.
  induction df as [|x df IH]; simpl.
  - constructor.
  - now apply insert_by_block_sorted.
Qed.

Lemma insert_by_block_front (t : Transaction) (df : list Transaction) :
  Forall (block_le t) df -> insert_by_block t df = t :: df.
Proof.
  intros H. destruct df as [|x df]; simpl; [reflexivity|].
  inversion H as [|? ? Hx _]; subst. unfold block_le in Hx.
  apply Z.leb_le in Hx. now rewrite Hx.
Qed.

Lemma Forall_filter_keep {A : Type} (P : A -> Prop) (p : A -> bool) (l : list A) :
  Forall P l -> Forall P (filter p l).
Proof.
  rewrite !Forall_forall. intros H x Hx. apply filter_In in Hx. now apply H.
Qed.

(** Filtering a sorted frame and inserting commute: the sort is stable. *)
Lemma filter_insert_by_block (p : Transaction -> bool) (t : Transaction)
    (df : list Transaction) :
  sorted_by_block df ->
  filter p (insert_by_block t df)
  = if p t then insert_by_block t (filter p df) else filter p df.
Proof.
  unfold sorted_by_block.
  induction df as [|x df IH]; intros Hs.
  - simpl. destruct (p t); reflexivity.
  - inversion Hs as [|? ? Hs' Hall]; subst.
    cbn [insert_by_block].
    destruct (block_number t <=? block_number x) eqn:Hle.
    + cbn [filter]. destruct (p t) eqn:Hpt; [|reflexivity].
      symmetry. apply insert_by_block_front.
      apply Z.leb_le in Hle.
      change (Forall (block_le t) (filter p (x :: df))).
      apply Forall_filter_keep. constructor; [exact Hle|].
      eapply Forall_impl; [|exact Hall]. unfold block_le. intros; lia.
    + cbn [filter]. rewrite (IH Hs').
      destruct (p x) eqn:Hpx; destruct (p t) eqn:Hpt; try reflexivity.
      cbn [insert_by_block]. now rewrite Hle.
Qed.

Lemma sort_values_filter (p : Transaction -> bool) (df : list Transaction) :
  sort_values (filter p df) = filter p (sort_values df).
Proof.
  induction df as [|x df IH]; [reflexivity|].
  cbn [filter]. change (sort_values (x :: df)) with (insert_by_block x (sort_values df)).
  rewrite filter_insert_by_block by apply sort_values_sorted.
  destruct (p x); [|exact IH].
  change (sort_values (x :: filter p df))
    with (insert_by_block x (sort_values (filter p df))).
  now rewrite IH.
Qed.


Lemma below_whale_cap_spec (t : Transaction) :
  below_whale_cap t = true <-> exists v, tx_value_eth t = Some v /\ (v < whale_cap)%Q.
Proof.
  unfold below_whale_cap. destruct (tx_value_eth t) as [v|].
  - rewrite Qltb_lt. split.
    + intros H. now exists v.
    + intros [v' [Hv H]]. now injection Hv as ->.
  - split; [discriminate|]. intros [v [Hv _]]. discriminate.
Qed.

Lemma is_whale_spec (t : Transaction) :
  is_whale t = true <-> exists v, tx_value_eth t = Some v /\ (whale_cap <= v)%Q.
Proof.
  unfold is_whale. destruct (tx_value_eth t) as [v|].
  - rewrite Qle_bool_iff. split.
    + intros H. now exists v.
    + intros [v' [Hv H]]. now injection Hv as ->.
  - split; [discriminate|]. intros [v [Hv _]]. discriminate.
Qed.

Lemma below_whale_cap_not_whale (t : Transaction) :
  below_whale_cap t = true -> negb (is_whale t) = true.
Proof.
  intros Hb. apply below_whale_cap_spec in Hb. destruct Hb as [v [Hv Hlt]].
  destruct (is_whale t) eqn:Hw; [|reflexivity].
  apply is_whale_spec in Hw. destruct Hw as [v' [Hv' Hle]].
  rewrite Hv in Hv'. injection Hv' as <-. lra.
Qed.


(** One transaction at or above the cap, anywhere in the input, changes no
    sum. *)
Lemma whale_contributes_nothing (interval_blocks : Z) (w : Transaction)
    (before after : list Transaction) :
  is_whale w = true ->
  interval_sums interval_blocks (before ++ w :: after)
  = interval_sums interval_blocks (before ++ after).
Proof.
  intros Hw. unfold interval_sums, filtered_table.
  rewrite <- !sort_values_filter. do 3 f_equal.
  rewrite !filter_app. cbn [filter].
  destruct (below_whale_cap w) eqn:Hb; [|reflexivity].
  apply below_whale_cap_not_whale in Hb. rewrite Hw in Hb. discriminate.
Qed.



(** ** The rows shown for an event *)

Lemma token_is_spec (tok : option string) (token_type : string) :
  token_is tok token_type = true <-> tok = Some token_type.
Proof.
  destruct tok as [t|]; simpl.
  - rewrite String.eqb_eq. split; congruence.
  - split; discriminate.
Qed.

Lemma filtered_table_In (interval_blocks : Z) (df : list Transaction) (r : Row) :
  In r (filtered_table interval_blocks df)
  <-> exists t, In t df /\ below_whale_cap t = true /\ r = row_of interval_blocks t.
Proof.
  unfold filtered_table, add_interval. rewrite in_map_iff. split.
  - intros [t [<- Ht]]. apply filter_In in Ht. destruct Ht as [Ht Hb].
    rewrite sort_values_In in Ht. exists t. repeat split; assumption.
  - intros [t [Ht [Hb ->]]]. exists t. split; [reflexivity|].
    apply filter_In. split; [now apply sort_values_In | exact Hb].
Qed.

(** The report shows, for each of its events, the rows of the filtered
    table. *)
Lemma report_details (df : list Transaction) (thr : Q) (L ib : Z) (report : Report) :
  detect_pump_and_dump_whale_not_included df thr L ib = Ok report ->
  pump_details report = details (filtered_table ib df) (pump_intervals report)
  /\ dump_details report = details (filtered_table ib df) (dump_intervals report).
Proof.
  unfold detect_pump_and_dump_whale_not_included.
  destruct (detect_groups thr L (groupby_token (groupby_sum (filtered_table ib df))))
    as [evs|e]; simpl; [|discriminate].
  intros H. injection H as <-. split; reflexivity.
Qed.

(** C5 (amended). For every event, the rows shown are exactly the
    transactions of the input whose value is below the whale cap, whose token
    is the event's and whose interval lies between the event's interval minus
    2 and the event's interval, both included. *)
Theorem relevant_transactions_exact
    (interval_blocks : Z) (df : list Transaction) (ev : Event) (r : Row) :
  In r (relevant_transactions (filtered_table interval_blocks df) ev)
  <-> exists t,
        In t df
        /\ r = row_of interval_blocks t
        /\ (exists v, tx_value_eth t = Some v /\ (v < whale_cap)%Q)
        /\ tx_token_type t = Some (ev_token_type ev)
        /\ ev_interval ev - 2 <= interval_of interval_blocks (block_number t)
           <= ev_interval ev.
Proof.
  unfold relevant_transactions. rewrite filter_In, filtered_table_In.
  rewrite !andb_true_iff, !Z.leb_le, token_is_spec. split.
  - intros [[t [Ht [Hb ->]]] [[Hlo Hhi] Htok]]. exists t.
    apply below_whale_cap_spec in Hb. cbn [row_of interval row_tx] in *. tauto.
  - intros [t [Ht [-> [Hb [Htok Hrange]]]]].
    apply below_whale_cap_spec in Hb. cbn [row_of interval row_tx].
    split; [now exists t | tauto].
Qed.

(** C5, as stated, fails: in a run that flags interval 2 of token T, a
    transfer of that token in interval 2 whose value is above the cap is in
    the input and is not among the rows shown for the event. *)
Lemma relevant_transactions_counterexample :
  exists report ev rows,
    detect_pump_and_dump_whale_not_included run_with_whale 10 2 50 = Ok report
    /\ pump_details report = [(ev, rows)]
    /\ In large_transfer run_with_whale
    /\ tx_token_type large_transfer = Some (ev_token_type ev)
    /\ ev_interval ev - 2 <= interval_of 50 (block_number large_transfer) <= ev_interval ev
    /\ ~ In large_transfer (map row_tx rows).
Proof.
  do 3 eexists. split; [vm_compute; reflexivity|].
  split; [reflexivity|].
  split; [now left|].
  split; [reflexivity|].
  split; [vm_compute; split; discriminate|].
  simpl. intros [H | [H | []]]; discriminate H.
Qed.

(** ** The line splitter *)

Lemma append_empty_r (s : string) : (s ++ "")%string = s.
Proof. induction s as [|c s IH]; simpl; [reflexivity | now rewrite IH]. Qed.

Lemma append_assoc (s1 s2 s3 : string) :
  ((s1 ++ s2) ++ s3)%string = (s1 ++ (s2 ++ s3))%string.
Proof. induction s1 as [|c s1 IH]; simpl; [reflexivity | now rewrite IH]. Qed.

Lemma join_app (xs ys : list string) : join (xs ++ ys) = (join xs ++ join ys)%string.
Proof.
  induction xs as [|x xs IH]; simpl; [reflexivity|].
  now rewrite IH, append_assoc.
Qed.


(** Cutting a text into lines loses nothing. *)
Lemma split_lines_join (text : string) : join (split_lines text) = text.
Proof.
  induction text as [|c text IH]; [reflexivity|].
  cbn [split_lines]. destruct (Ascii.eqb c newline).
  - simpl. now rewrite IH.
  - destruct (split_lines text) as [|line rest].
    + simpl in *. now rewrite <- IH.
    + simpl in *. now rewrite IH.
Qed.




(** * Further properties *)

(** ** The line splitter: sizes *)

Lemma length_append (s1 s2 : string) :
  String.length (s1 ++ s2) = (String.length s1 + String.length s2)%nat.
Proof. induction s1 as [|c s1 IH]; simpl; [reflexivity | now rewrite IH]. Qed.

Lemma line_size_append (s1 s2 : string) :
  line_size (s1 ++ s2) = line_size s1 + line_size s2.
Proof. unfold line_size. rewrite length_append. lia. Qed.

Lemma line_size_nonneg (s : string) : 0 <= line_size s.
Proof. unfold line_size. lia. Qed.

Lemma total_cons (l : string) (g : list string) : total (l :: g) = line_size l + total g.
Proof. unfold total. simpl. apply line_size_append. Qed.

Lemma total_app (g1 g2 : list string) : total (g1 ++ g2) = total g1 + total g2.
Proof. unfold total. rewrite join_app. apply line_size_append. Qed.

Lemma total_nil : total [] = 0.
Proof. reflexivity. Qed.

Lemma total_nonneg (g : list string) : 0 <= total g.
Proof. apply line_size_nonneg. Qed.

Lemma join_single (l : string) : join [l] = l.
Proof. simpl. apply append_empty_r. Qed.

Lemma greedy_same_file (chunk_size : Z) (line : string) (cur : list string) :
  forall groups,
    greedy chunk_size (groups ++ [cur]) ->
    greedy chunk_size (groups ++ [cur ++ [line]]).
Proof.
  induction groups as [|g groups IH]; intros H; [exact I|].
  destruct groups as [|g' groups].
  - simpl in *. destruct H as [(l & tl & -> & Hgt) _].
    split; [|exact I]. exists l, (tl ++ [line]). split; [reflexivity | exact Hgt].
  - change (greedy chunk_size (g :: g' :: (groups ++ [cur]))) in H.
    change (greedy chunk_size (g :: g' :: (groups ++ [cur ++ [line]]))).
    cbn [greedy] in H |- *. destruct H as [Hg Hrest].
    split; [exact Hg|]. apply (IH Hrest).
Qed.

Lemma greedy_new_file (chunk_size : Z) (line : string) (cur : list string) :
  total cur + line_size line > chunk_size ->
  forall groups,
    greedy chunk_size (groups ++ [cur]) ->
    greedy chunk_size ((groups ++ [cur]) ++ [[line]]).
Proof.
  intros Hgt. induction groups as [|g groups IH]; intros H.
  - simpl. split; [|exact I]. exists line, []. split; [reflexivity | exact Hgt].
  - destruct groups as [|g' groups].
    + simpl in *. destruct H as [Hg _]. split; [exact Hg|].
      split; [|exact I]. exists line, []. split; [reflexivity | exact Hgt].
    + change (greedy chunk_size (g :: g' :: (groups ++ [cur]))) in H.
      change (greedy chunk_size (g :: g' :: ((groups ++ [cur]) ++ [[line]]))).
      cbn [greedy] in H |- *. destruct H as [Hg Hrest].
      split; [exact Hg|]. apply (IH Hrest).
Qed.

Lemma step_filled (chunk_size : Z) (st : State) (line : string)
    (groups : list (list string)) (cur : list string) :
  filled chunk_size st groups cur ->
  exists groups' cur',
    filled chunk_size (step chunk_size st line) groups' cur'
    /\ List.concat groups' ++ cur' = (List.concat groups ++ cur) ++ [line].
Proof.
  intros ((Hsnd & Hfst & Hidx & Hout) & Hsize & Hgreedy & Hfits). unfold step.
  destruct (current_chunk_size st + line_size line >? chunk_size) eqn:Hcmp.
  - apply Z.gtb_lt in Hcmp. rewrite Hsize in Hcmp.
    exists (groups ++ [cur]), [line]. split.
    + unfold filled, holds, write_line, start_new_file.
      cbn [closed chunk_index outfile current_chunk_size].
      rewrite !map_app, length_app, Hsnd, Hfst, Hidx, Hout. cbn [map List.length fst snd].
      repeat split.
      * rewrite Nat.add_1_r, seq_S, map_app. reflexivity.
      * lia.
      * simpl. now rewrite append_empty_r.
      * rewrite total_cons, total_nil. lia.
      * apply greedy_new_file; [lia | exact Hgreedy].
      * intros Hcs. apply Forall_app. split; [now apply Hfits|].
        constructor; [|constructor]. right. now exists line.
    + rewrite concat_app. simpl. now rewrite app_nil_r, <- app_assoc.
  - assert (Hle : total cur + line_size line <= chunk_size).
    { rewrite <- Hsize. destruct (Z.gtb_spec (current_chunk_size st + line_size line)
                                              chunk_size); [discriminate | lia]. }
    exists groups, (cur ++ [line]). split.
    + unfold filled, holds, write_line.
      cbn [closed chunk_index outfile current_chunk_size].
      repeat split; try assumption.
      * rewrite join_app, Hout. simpl. now rewrite append_empty_r.
      * rewrite total_app, total_cons, total_nil, Hsize. lia.
      * now apply greedy_same_file.
      * intros Hcs. specialize (Hfits Hcs). apply Forall_app in Hfits.
        destruct Hfits as [Hg _]. apply Forall_app. split; [exact Hg|].
        constructor; [|constructor]. left.
        rewrite total_app, total_cons, total_nil. lia.
    + now rewrite app_assoc.
Qed.

Lemma fold_step_filled (chunk_size : Z) (lines : list string) :
  forall st groups cur,
    filled chunk_size st groups cur ->
    exists groups' cur',
      filled chunk_size (fold_left (step chunk_size) lines st) groups' cur'
      /\ List.concat groups' ++ cur' = (List.concat groups ++ cur) ++ lines.
Proof.
  induction lines as [|line lines IH]; intros st groups cur H.
  - exists groups, cur. split; [exact H | now rewrite app_nil_r].
  - destruct (step_filled chunk_size st line groups cur H) as (g1 & c1 & H1 & E1).
    destruct (IH _ _ _ H1) as (g2 & c2 & H2 & E2).
    exists g2, c2. split; [exact H2|].
    rewrite E2, E1, <- app_assoc. reflexivity.
Qed.

(** The groups of lines behind the files of a run. *)
Lemma split_jsonl_groups (text : string) (chunk_size : Z) :
  exists groups : list (list string),
    List.concat groups = split_lines text
    /\ map snd (split_jsonl text chunk_size) = map join groups
    /\ map fst (split_jsonl text chunk_size) = map Z.of_nat (seq 1 (List.length groups))
    /\ greedy chunk_size groups
    /\ (0 <= chunk_size -> Forall (fits chunk_size) groups).
Proof.
  destruct (fold_step_filled chunk_size (split_lines text) initial [] [])
    as (groups & cur & ((Hsnd & Hfst & Hidx & Hout) & _ & Hgreedy & Hfits) & Hlines).
  { repeat split. intros Hcs. constructor; [|constructor]. left. exact Hcs. }
  simpl in Hlines.
  exists (groups ++ [cur]). repeat split.
  - rewrite concat_app. simpl. now rewrite app_nil_r.
  - unfold split_jsonl, close_last. rewrite !map_app, Hsnd. simpl. now rewrite Hout.
  - unfold split_jsonl, close_last.
    rewrite map_app, length_app, Hfst, Hidx. cbn [map List.length fst].
    now rewrite Nat.add_1_r, seq_S, map_app.
  - exact Hgreedy.
  - exact Hfits.
Qed.

Lemma split_lines_nonempty (text : string) :
  forall l, In l (split_lines text) -> l <> EmptyString.
Proof.
  induction text as [|c text IH]; intros l Hl; [contradiction|].
  cbn [split_lines] in Hl. destruct (Ascii.eqb c newline).
  - destruct Hl as [<- | Hl]; [discriminate | now apply IH].
  - destruct (split_lines text) as [|line rest].
    + destruct Hl as [<- | []]. discriminate.
    + destruct Hl as [<- | Hl]; [discriminate|]. apply IH. now right.
Qed.

Lemma line_size_le_total (l : string) (g : list string) :
  In l g -> line_size l <= total g.
Proof.
  induction g as [|x g IH]; intros H; [contradiction|].
  rewrite total_cons. pose proof (line_size_nonneg x). pose proof (total_nonneg g).
  destruct H as [-> | H]; [lia|]. specialize (IH H). lia.
Qed.

Lemma greedy_adjacent (chunk_size : Z) (groups : list (list string)) :
  greedy chunk_size groups ->
  forall i g g',
    nth_error groups i = Some g -> nth_error groups (S i) = Some g' ->
    exists l tl, g' = l :: tl /\ total g + line_size l > chunk_size.
Proof.
  induction groups as [|x groups IH]; intros H i g g' Hg Hg'.
  - destruct i; discriminate.
  - destruct groups as [|y groups]; [destruct i; discriminate|].
    cbn [greedy] in H. destruct H as [Hxy Hrest].
    destruct i as [|i].
    + simpl in Hg, Hg'. injection Hg as <-. injection Hg' as <-. exact Hxy.
    + apply (IH Hrest i g g'); assumption.
Qed.

(** A file of the output is the group at its position, and its number is the
    position counted from 1. *)
Lemma file_is_group (out : list (Z * string)) (groups : list (list string)) :
  map snd out = map join groups ->
  map fst out = map Z.of_nat (seq 1 (List.length groups)) ->
  forall k content,
    In (k, content) out ->
    exists i g, k = Z.of_nat (S i) /\ nth_error groups i = Some g /\ content = join g.
Proof.
  intros Hsnd Hfst k content Hin.
  apply In_nth_error in Hin. destruct Hin as [i Hi].
  assert (Hk : nth_error (map fst out) i = Some k) by (rewrite nth_error_map, Hi; reflexivity).
  assert (Hc : nth_error (map snd out) i = Some content)
    by (rewrite nth_error_map, Hi; reflexivity).
  rewrite Hsnd, nth_error_map in Hc. rewrite Hfst, nth_error_map in Hk.
  destruct (nth_error groups i) as [g|] eqn:Hg; [|discriminate].
  injection Hc as <-. exists i, g. split; [|split; [exact Hg | reflexivity]].
  assert (Hlt : (i < List.length groups)%nat).
  { apply (proj1 (nth_error_Some groups i)). rewrite Hg. discriminate. }
  destruct (nth_error (seq 1 (List.length groups)) i) as [n|] eqn:Hn; [|discriminate].
  injection Hk as <-.
  pose proof (nth_error_nth _ _ 0%nat Hn) as Hnth.
  rewrite seq_nth in Hnth by exact Hlt. subst n. reflexivity.
Qed.

(** X1. With a non-negative budget, a file is larger than [chunk_size] only
    when it holds exactly one line of the input. *)
Theorem split_jsonl_respects_budget (text : string) (chunk_size : Z) (k : Z)
    (content : string) :
  0 <= chunk_size ->
  In (k, content) (split_jsonl text chunk_size) ->
  line_size content <= chunk_size \/ In content (split_lines text).
Proof.
  intros Hcs Hin.
  destruct (split_jsonl_groups text chunk_size) as (groups & Hc & Hsnd & Hfst & _ & Hfits).
  destruct (file_is_group _ _ Hsnd Hfst k content Hin) as (i & g & _ & Hg & ->).
  apply nth_error_In in Hg.
  specialize (Hfits Hcs). rewrite Forall_forall in Hfits.
  destruct (Hfits g Hg) as [Hle | [l ->]].
  - left. exact Hle.
  - right. rewrite join_single, <- Hc. apply in_concat. exists [l]. split; [exact Hg | now left].
Qed.

Lemma split_jsonl_respects_budget_witness :
  line_size ("abcdefg" ++ nl) <= 4 \/ In ("abcdefg" ++ nl)%string (split_lines long_first_line).
Proof.
  apply (split_jsonl_respects_budget long_first_line 4 2 ("abcdefg" ++ nl)%string).
  - lia.
  - vm_compute. right. left. reflexivity.
Defined.

(** X2. Files are filled greedily: the lines fall into consecutive groups,
    one per file, and the first line of every file after the first is a line
    that did not fit behind the content of the file before it. *)
Theorem split_jsonl_fills_greedily (text : string) (chunk_size : Z) :
  exists groups : list (list string),
    List.concat groups = split_lines text
    /\ map snd (split_jsonl text chunk_size) = map join groups
    /\ forall i g g',
         nth_error groups i = Some g -> nth_error groups (S i) = Some g' ->
         exists l tl, g' = l :: tl /\ line_size (join g) + line_size l > chunk_size.
Proof.
  destruct (split_jsonl_groups text chunk_size) as (groups & Hc & Hsnd & _ & Hgreedy & _).
  exists groups. split; [exact Hc|]. split; [exact Hsnd|].
  exact (greedy_adjacent chunk_size groups Hgreedy).
Qed.

(** X3. Only the first file can be empty: every file with a number above 1
    has content. *)
Theorem split_jsonl_later_files_nonempty (text : string) (chunk_size : Z) (k : Z)
    (content : string) :
  In (k, content) (split_jsonl text chunk_size) ->
  1 < k ->
  content <> EmptyString.
Proof.
  intros Hin Hk.
  destruct (split_jsonl_groups text chunk_size) as (groups & Hc & Hsnd & Hfst & Hgreedy & _).
  destruct (file_is_group _ _ Hsnd Hfst k content Hin) as (i & g & -> & Hg & ->).
  destruct i as [|i]; [lia|].
  assert (Hprev : exists g0, nth_error groups i = Some g0).
  { destruct (nth_error groups i) as [g0|] eqn:H0; [now exists g0|].
    apply nth_error_None in H0.
    assert (S i < List.length groups)%nat
      by (apply (proj1 (nth_error_Some groups (S i))); rewrite Hg; discriminate).
    lia. }
  destruct Hprev as [g0 Hg0].
  destruct (greedy_adjacent _ _ Hgreedy i g0 g Hg0 Hg) as (l & tl & -> & _).
  assert (Hl : l <> EmptyString).
  { apply (split_lines_nonempty text). rewrite <- Hc. apply in_concat.
    exists (l :: tl). split; [now apply nth_error_In in Hg | now left]. }
  simpl. destruct l; [congruence | discriminate].
Qed.

Lemma split_jsonl_later_files_nonempty_witness :
  ("cd" ++ nl ++ nl)%string <> EmptyString.
Proof.
  apply (split_jsonl_later_files_nonempty four_lines 4 2 ("cd" ++ nl ++ nl)%string).
  - vm_compute. right. left. reflexivity.
  - lia.
Defined.

Lemma fold_step_fits (chunk_size : Z) (lines : list string) :
  forall st,
    current_chunk_size st + total lines <= chunk_size ->
    fold_left (step chunk_size) lines st
    = {| chunk_index := chunk_index st;
         current_chunk_size := current_chunk_size st + total lines;
         outfile := outfile st ++ join lines;
         closed := closed st |}.
Proof.
  induction lines as [|line lines IH]; intros st H.
  - simpl. rewrite total_nil, Z.add_0_r, append_empty_r. now destruct st.
  - rewrite total_cons in H. pose proof (total_nonneg lines).
    cbn [fold_left]. unfold step at 2.
    replace (current_chunk_size st + line_size line >? chunk_size) with false
      by (symmetry; rewrite Z.gtb_ltb; apply Z.ltb_ge; lia).
    rewrite IH by (simpl; lia).
    unfold write_line. cbn [chunk_index current_chunk_size outfile closed].
    rewrite total_cons, append_assoc. f_equal. lia.
Qed.

(** X4. A text that fits in the budget goes whole into the single file
    number 1. *)
Theorem split_jsonl_single_file (text : string) (chunk_size : Z) :
  line_size text <= chunk_size ->
  split_jsonl text chunk_size = [(1, text)].
Proof.
  intros H. unfold split_jsonl.
  rewrite fold_step_fits.
  - unfold close_last. simpl. now rewrite split_lines_join.
  - simpl. unfold total. now rewrite split_lines_join.
Qed.

Lemma split_jsonl_single_file_witness :
  split_jsonl four_lines 8 = [(1, four_lines)].
Proof.
  apply (split_jsonl_single_file four_lines 8). vm_compute. discriminate.
Defined.

(** X5. With a non-negative budget, a line longer than [chunk_size] is the
    whole content of a file. *)
Theorem split_jsonl_oversized_line_alone (text : string) (chunk_size : Z) (l : string) :
  0 <= chunk_size ->
  In l (split_lines text) ->
  chunk_size < line_size l ->
  exists k, In (k, l) (split_jsonl text chunk_size).
Proof.
  intros Hcs Hl Hbig.
  destruct (split_jsonl_groups text chunk_size) as (groups & Hc & Hsnd & _ & _ & Hfits).
  rewrite <- Hc in Hl. apply in_concat in Hl. destruct Hl as (g & Hg & Hlg).
  specialize (Hfits Hcs). rewrite Forall_forall in Hfits.
  assert (Hgl : g = [l]).
  { destruct (Hfits g Hg) as [Hle | [l' ->]].
    - pose proof (line_size_le_total l g Hlg). lia.
    - destruct Hlg as [-> | []]. reflexivity. }
  subst g.
  assert (Hin : In l (map snd (split_jsonl text chunk_size))).
  { rewrite Hsnd. apply in_map_iff. exists [l]. split; [apply join_single | exact Hg]. }
  apply in_map_iff in Hin. destruct Hin as ([k c] & Hkc & Hin). simpl in Hkc. subst c.
  now exists k.
Qed.

Lemma split_jsonl_oversized_line_alone_witness :
  exists k, In (k, ("abcdefg" ++ nl)%string) (split_jsonl long_first_line 4).
Proof.
  apply (split_jsonl_oversized_line_alone long_first_line 4 ("abcdefg" ++ nl)%string).
  - lia.
  - vm_compute. left. reflexivity.
  - vm_compute. reflexivity.
Defined.

(** ** The table of sums *)

Lemma string_compare_eq (a b : string) : String.compare a b = Eq <-> a = b.
Proof. exact (OrderedTypeEx.String_as_OT.cmp_eq a b). Qed.

Lemma string_compare_lt_trans (a b c : string) :
  String.compare a b = Lt -> String.compare b c = Lt -> String.compare a c = Lt.
Proof.
  intros H1 H2.
  apply (OrderedTypeEx.String_as_OT.cmp_lt a c).
  apply (OrderedTypeEx.String_as_OT.lt_trans a b c);
    now apply OrderedTypeEx.String_as_OT.cmp_lt.
Qed.

Lemma string_compare_gt_lt (a b : string) :
  String.compare a b = Gt -> String.compare b a = Lt.
Proof. intros H. rewrite String.compare_antisym, H. reflexivity. Qed.

Lemma string_compare_lt_neq (a b : string) : String.compare a b = Lt -> a <> b.
Proof. intros H ->. rewrite (proj2 (string_compare_eq b b) eq_refl) in H. discriminate. Qed.

Lemma key_compare_eq (i : Z) (t : string) (i' : Z) (t' : string) :
  key_compare i t i' t' = Eq <-> i = i' /\ t = t'.
Proof.
  unfold key_compare. destruct (i ?= i') eqn:Hi.
  - rewrite Z.compare_eq_iff in Hi. rewrite string_compare_eq. intuition.
  - rewrite Z.compare_lt_iff in Hi. split; [discriminate | intros [? _]; lia].
  - rewrite Z.compare_gt_iff in Hi. split; [discriminate | intros [? _]; lia].
Qed.

Lemma key_compare_lt (i : Z) (t : string) (i' : Z) (t' : string) :
  key_compare i t i' t' = Lt <-> i < i' \/ (i = i' /\ String.compare t t' = Lt).
Proof.
  unfold key_compare. destruct (i ?= i') eqn:Hi.
  - rewrite Z.compare_eq_iff in Hi. split.
    + intros H. right. now split.
    + intros [H | [_ H]]; [lia | exact H].
  - rewrite Z.compare_lt_iff in Hi. split; [now left | reflexivity].
  - rewrite Z.compare_gt_iff in Hi. split; [discriminate | intros [H | [H _]]; lia].
Qed.

Lemma key_compare_gt_lt (i : Z) (t : string) (i' : Z) (t' : string) :
  key_compare i t i' t' = Gt -> key_compare i' t' i t = Lt.
Proof.
  unfold key_compare. destruct (i ?= i') eqn:Hi.
  - rewrite Z.compare_eq_iff in Hi. subst. rewrite Z.compare_refl. apply string_compare_gt_lt.
  - discriminate.
  - intros _. rewrite Z.compare_gt_iff in Hi.
    now rewrite (proj2 (Z.compare_lt_iff i' i) Hi).
Qed.

Lemma key_lt_trans (a b c : Aggregate) : key_lt a b -> key_lt b c -> key_lt a c.
Proof.
  unfold key_lt. rewrite !key_compare_lt.
  intros [H1 | [H1 S1]] [H2 | [H2 S2]]; try (left; lia).
  right. split; [lia|]. eapply string_compare_lt_trans; eassumption.
Qed.

Lemma lookup_sum_below (i : Z) (tok : string) (sums : list Aggregate) :
  Forall (fun a => key_compare i tok (agg_interval a) (agg_token_type a) = Lt) sums ->
  lookup_sum i tok sums = None.
Proof.
  induction sums as [|a sums IH]; intros H; [reflexivity|].
  inversion H as [|? ? Ha Hrest]; subst. cbn [lookup_sum].
  destruct ((agg_interval a =? i) && String.eqb (agg_token_type a) tok) eqn:Hk.
  - apply andb_true_iff in Hk. destruct Hk as [Hi Ht].
    apply Z.eqb_eq in Hi. apply String.eqb_eq in Ht. subst.
    rewrite (proj2 (key_compare_eq _ _ _ _) (conj eq_refl eq_refl)) in Ha. discriminate.
  - now apply IH.
Qed.

Lemma add_to_sums_keys (i : Z) (tok : string) (v : Q) (sums : list Aggregate) :
  forall x, In x (add_to_sums i tok v sums) ->
    (agg_interval x = i /\ agg_token_type x = tok) \/ In x sums.
Proof.
  induction sums as [|a sums IH]; intros x Hx; simpl in Hx.
  - destruct Hx as [<- | []]. left. split; reflexivity.
  - destruct (key_compare i tok (agg_interval a) (agg_token_type a)).
    + destruct Hx as [<- | Hx]; [left; split; reflexivity | right; now right].
    + destruct Hx as [<- | Hx]; [left; split; reflexivity | right; exact Hx].
    + destruct Hx as [<- | Hx]; [right; now left|].
      destruct (IH x Hx) as [H | H]; [now left | right; now right].
Qed.

Lemma add_to_sums_sorted (i : Z) (tok : string) (v : Q) (sums : list Aggregate) :
  sorted_by_key sums -> sorted_by_key (add_to_sums i tok v sums).
Proof.
  unfold sorted_by_key. induction sums as [|a sums IH]; intros Hs; simpl.
  - constructor; constructor.
  - inversion Hs as [|? ? Hs' Hall]; subst.
    destruct (key_compare i tok (agg_interval a) (agg_token_type a)) eqn:Hc.
    + apply key_compare_eq in Hc. destruct Hc as [-> ->].
      constructor; [exact Hs'|]. exact Hall.
    + constructor; [exact Hs|]. constructor; [exact Hc|].
      eapply Forall_impl; [|exact Hall]. intros b Hb.
      eapply key_lt_trans; [|exact Hb]. exact Hc.
    + constructor; [now apply IH|].
      apply Forall_forall. intros x Hx. apply add_to_sums_keys in Hx.
      destruct Hx as [[Hi Ht] | Hx].
      * unfold key_lt. rewrite Hi, Ht. now apply key_compare_gt_lt.
      * rewrite Forall_forall in Hall. now apply Hall.
Qed.

Lemma lookup_sum_add (i : Z) (tok : string) (i' : Z) (t : string) (v : Q)
    (sums : list Aggregate) :
  sorted_by_key sums ->
  lookup_sum i tok (add_to_sums i' t v sums)
  = if (i' =? i) && String.eqb t tok then add_value (lookup_sum i tok sums) v
    else lookup_sum i tok sums.
Proof.
  unfold sorted_by_key. induction sums as [|a sums IH]; intros Hs.
  - simpl. destruct ((i' =? i) && String.eqb t tok); reflexivity.
  - inversion Hs as [|? ? Hs' Hall]; subst. cbn [add_to_sums].
    destruct (key_compare i' t (agg_interval a) (agg_token_type a)) eqn:Hc.
    + apply key_compare_eq in Hc. destruct Hc as [-> ->].
      cbn [lookup_sum agg_interval agg_token_type agg_tx_value_eth].
      destruct ((agg_interval a =? i) && String.eqb (agg_token_type a) tok); reflexivity.
    + assert (Hnone : lookup_sum i' t (a :: sums) = None).
      { apply lookup_sum_below. constructor; [exact Hc|].
        eapply Forall_impl; [|exact Hall]. intros b Hb.
        apply (key_lt_trans {| agg_interval := i'; agg_token_type := t;
                               agg_tx_value_eth := v |} a b); [exact Hc | exact Hb]. }
      change (lookup_sum i tok
                ({| agg_interval := i'; agg_token_type := t; agg_tx_value_eth := v |}
                 :: a :: sums))
        with (if (i' =? i) && String.eqb t tok then Some v
              else lookup_sum i tok (a :: sums)).
      destruct ((i' =? i) && String.eqb t tok) eqn:Hk; [|reflexivity].
      apply andb_true_iff in Hk. destruct Hk as [Hi Ht].
      apply Z.eqb_eq in Hi. apply String.eqb_eq in Ht. subst i' t.
      rewrite Hnone. reflexivity.
    + cbn [lookup_sum]. rewrite (IH Hs').
      destruct ((agg_interval a =? i) && String.eqb (agg_token_type a) tok) eqn:Ha;
        [|reflexivity].
      apply andb_true_iff in Ha. destruct Ha as [Hi Ht].
      apply Z.eqb_eq in Hi. apply String.eqb_eq in Ht. subst i tok.
      destruct ((i' =? agg_interval a) && String.eqb t (agg_token_type a)) eqn:Hk;
        [|reflexivity].
      apply andb_true_iff in Hk. destruct Hk as [Hi Ht].
      apply Z.eqb_eq in Hi. apply String.eqb_eq in Ht. subst i' t.
      rewrite (proj2 (key_compare_eq _ _ _ _) (conj eq_refl eq_refl)) in Hc. discriminate.
Qed.

Lemma groupby_sum_from (i : Z) (tok : string) (table : list Row) :
  forall sums,
    sorted_by_key sums ->
    let result :=
      fold_left
        (fun sums r =>
           match tx_token_type (row_tx r) with
           | Some tok => add_to_sums (interval r) tok
                           (value_or_zero (tx_value_eth (row_tx r))) sums
           | None => sums
           end)
        table sums in
    sorted_by_key result
    /\ lookup_sum i tok result = running_sum (lookup_sum i tok sums) (values_of i tok table).
Proof.
  induction table as [|r table IH]; intros sums Hs; cbn zeta.
  - split; [exact Hs | reflexivity].
  - cbn [fold_left]. unfold values_of. cbn [filter]. unfold has_key at 1.
    destruct (tx_token_type (row_tx r)) as [t|] eqn:Ht.
    + destruct (IH (add_to_sums (interval r) t (value_or_zero (tx_value_eth (row_tx r))) sums)
                   (add_to_sums_sorted _ _ _ _ Hs)) as [Hsorted Hlookup].
      split; [exact Hsorted|]. cbv zeta in Hlookup. rewrite Hlookup.
      rewrite lookup_sum_add by exact Hs. cbn [token_is].
      destruct ((interval r =? i) && String.eqb t tok); reflexivity.
    + destruct (IH sums Hs) as [Hsorted Hlookup].
      split; [exact Hsorted|]. cbn [token_is]. rewrite andb_false_r. exact Hlookup.
Qed.

(** X6. The table of sums has its keys, interval then token, in strictly
    ascending order, so a key occurs once; the sum recorded for a key is the
    values of the rows of that interval and token, added in row order, and a
    key without rows is not in the table. *)
Theorem interval_sums_by_key (interval_blocks : Z) (df : list Transaction)
    (i : Z) (tok : string) :
  sorted_by_key (interval_sums interval_blocks df)
  /\ lookup_sum i tok (interval_sums interval_blocks df)
     = running_sum None (values_of i tok (filtered_table interval_blocks df))
  /\ (lookup_sum i tok (interval_sums interval_blocks df) = None
      <-> filter (has_key i tok) (filtered_table interval_blocks df) = []).
Proof.
  destruct (groupby_sum_from i tok (filtered_table interval_blocks df) [])
    as [Hsorted Hlookup]; [constructor|].
  split; [exact Hsorted|]. split; [exact Hlookup|].
  unfold interval_sums, groupby_sum. cbv zeta in Hlookup. rewrite Hlookup.
  unfold values_of. simpl lookup_sum.
  destruct (filter (has_key i tok) (filtered_table interval_blocks df)) as [|r rows].
  - split; reflexivity.
  - split; [|discriminate]. cbn [map running_sum fold_left].
    assert (Hsome : forall vs s, fold_left add_value vs (Some s) <> None).
    { induction vs as [|x vs IHvs]; intros s; [discriminate | apply IHvs]. }
    intros H. exfalso. exact (Hsome _ _ H).
Qed.

(** ** The partitions by token *)

Lemma StronglySorted_filter {A : Type} (R : A -> A -> Prop) (p : A -> bool) (l : list A) :
  StronglySorted R l -> StronglySorted R (filter p l).
Proof.
  induction l as [|x l IH]; intros H; [constructor|].
  inversion H as [|? ? Hl Hall]; subst. cbn [filter].
  destruct (p x); [|now apply IH].
  constructor; [now apply IH | now apply Forall_filter_keep].
Qed.

Lemma group_of_above (tok : string) (grouped : list (string * list Aggregate)) :
  Forall (fun x => String.compare tok (fst x) = Lt) grouped ->
  group_of tok grouped = [].
Proof.
  induction grouped as [|[t g] grouped IH]; intros H; [reflexivity|].
  inversion H as [|? ? Ht Hrest]; subst. cbn [group_of]. cbn [fst] in Ht.
  destruct (String.eqb t tok) eqn:He; [|now apply IH].
  apply String.eqb_eq in He. subst. now apply string_compare_lt_neq in Ht.
Qed.

Lemma add_to_group_tokens (a : Aggregate) (grouped : list (string * list Aggregate)) :
  forall x, In x (add_to_group a grouped) ->
    fst x = agg_token_type a \/ exists y, In y grouped /\ fst x = fst y.
Proof.
  induction grouped as [|[t g] grouped IH]; intros x Hx; simpl in Hx.
  - destruct Hx as [<- | []]. now left.
  - destruct (String.compare (agg_token_type a) t).
    + destruct Hx as [<- | Hx].
      * right. exists (t, g). split; [now left | reflexivity].
      * right. exists x. split; [now right | reflexivity].
    + destruct Hx as [<- | Hx]; [now left|].
      right. exists x. split; [exact Hx | reflexivity].
    + destruct Hx as [<- | Hx].
      * right. exists (t, g). split; [now left | reflexivity].
      * destruct (IH x Hx) as [H | (y & Hy & E)]; [now left|].
        right. exists y. split; [now right | exact E].
Qed.

Lemma add_to_group_sorted (a : Aggregate) (grouped : list (string * list Aggregate)) :
  StronglySorted token_lt grouped -> StronglySorted token_lt (add_to_group a grouped).
Proof.
  induction grouped as [|[t g] grouped IH]; intros Hs; simpl.
  - constructor; constructor.
  - inversion Hs as [|? ? Hs' Hall]; subst.
    destruct (String.compare (agg_token_type a) t) eqn:Hc.
    + constructor; [exact Hs' | exact Hall].
    + constructor; [exact Hs|]. constructor; [exact Hc|].
      eapply Forall_impl; [|exact Hall]. unfold token_lt. cbn [fst]. intros y Hy.
      eapply string_compare_lt_trans; eassumption.
    + constructor; [now apply IH|].
      apply Forall_forall. intros x Hx. apply add_to_group_tokens in Hx.
      unfold token_lt. cbn [fst].
      destruct Hx as [-> | (y & Hy & ->)].
      * now apply string_compare_gt_lt.
      * rewrite Forall_forall in Hall. exact (Hall y Hy).
Qed.

Lemma add_to_group_nonempty (a : Aggregate) (grouped : list (string * list Aggregate)) :
  Forall (fun x => snd x <> []) grouped ->
  Forall (fun x => snd x <> []) (add_to_group a grouped).
Proof.
  induction grouped as [|[t g] grouped IH]; intros H; simpl.
  - constructor; [discriminate | constructor].
  - inversion H as [|? ? Hg Hrest]; subst.
    destruct (String.compare (agg_token_type a) t).
    + constructor; [|exact Hrest]. cbn [snd]. destruct g; discriminate.
    + constructor; [discriminate | exact H].
    + constructor; [exact Hg | now apply IH].
Qed.

Lemma group_of_add (tok : string) (a : Aggregate)
    (grouped : list (string * list Aggregate)) :
  StronglySorted token_lt grouped ->
  group_of tok (add_to_group a grouped)
  = group_of tok grouped ++ (if has_token tok a then [a] else []).
Proof.
  unfold has_token.
  induction grouped as [|[t g] grouped IH]; intros Hs.
  - simpl. destruct (String.eqb (agg_token_type a) tok); reflexivity.
  - inversion Hs as [|? ? Hs' Hall]; subst. cbn [add_to_group].
    destruct (String.compare (agg_token_type a) t) eqn:Hc.
    + apply string_compare_eq in Hc. subst t. cbn [group_of].
      destruct (String.eqb (agg_token_type a) tok); [reflexivity | now rewrite app_nil_r].
    + change (group_of tok ((agg_token_type a, [a]) :: (t, g) :: grouped))
        with (if String.eqb (agg_token_type a) tok then [a]
              else group_of tok ((t, g) :: grouped)).
      destruct (String.eqb (agg_token_type a) tok) eqn:He; [|now rewrite app_nil_r].
      apply String.eqb_eq in He. subst tok.
      rewrite (group_of_above (agg_token_type a) ((t, g) :: grouped)); [reflexivity|].
      constructor; [exact Hc|].
      eapply Forall_impl; [|exact Hall]. unfold token_lt. cbn [fst]. intros y Hy.
      eapply string_compare_lt_trans; eassumption.
    + cbn [group_of]. destruct (String.eqb t tok) eqn:He.
      * apply String.eqb_eq in He. subst tok.
        destruct (String.eqb (agg_token_type a) t) eqn:Ha; [|now rewrite app_nil_r].
        apply String.eqb_eq in Ha. rewrite Ha in Hc.
        rewrite (proj2 (string_compare_eq t t) eq_refl) in Hc. discriminate.
      * now apply IH.
Qed.

Lemma group_of_In (t : string) (g : list Aggregate)
    (grouped : list (string * list Aggregate)) :
  StronglySorted token_lt grouped -> In (t, g) grouped -> group_of t grouped = g.
Proof.
  induction grouped as [|[t0 g0] grouped IH]; intros Hs Hin; [contradiction|].
  inversion Hs as [|? ? Hs' Hall]; subst. cbn [group_of].
  destruct Hin as [E | Hin].
  - injection E as -> ->. now rewrite String.eqb_refl.
  - rewrite Forall_forall in Hall. specialize (Hall _ Hin).
    unfold token_lt in Hall. cbn [fst] in Hall.
    apply string_compare_lt_neq in Hall.
    apply String.eqb_neq in Hall. rewrite Hall. now apply IH.
Qed.

Lemma group_of_nonempty_In (t : string) (grouped : list (string * list Aggregate)) :
  group_of t grouped <> [] -> In (t, group_of t grouped) grouped.
Proof.
  induction grouped as [|[t0 g0] grouped IH]; intros H; [now elim H|].
  cbn [group_of] in *. destruct (String.eqb t0 t) eqn:He.
  - apply String.eqb_eq in He. subst. now left.
  - right. now apply IH.
Qed.

Lemma groupby_token_from (sums : list Aggregate) :
  forall grouped,
    StronglySorted token_lt grouped ->
    Forall (fun x => snd x <> []) grouped ->
    let result := fold_left (fun grouped a => add_to_group a grouped) sums grouped in
    StronglySorted token_lt result
    /\ Forall (fun x => snd x <> []) result
    /\ forall tok, group_of tok result = group_of tok grouped ++ filter (has_token tok) sums.
Proof.
  induction sums as [|a sums IH]; intros grouped Hs Hne; cbn zeta.
  - repeat split; try assumption. intros tok. now rewrite app_nil_r.
  - cbn [fold_left].
    destruct (IH (add_to_group a grouped) (add_to_group_sorted a grouped Hs)
                 (add_to_group_nonempty a grouped Hne)) as (H1 & H2 & H3).
    repeat split; try assumption.
    intros tok. cbv zeta in H3. rewrite H3, group_of_add by exact Hs.
    cbn [filter]. rewrite <- app_assoc.
    destruct (has_token tok a); reflexivity.
Qed.

Lemma groupby_token_partitions (sums : list Aggregate) :
  StronglySorted token_lt (groupby_token sums)
  /\ Forall (fun x => snd x <> []) (groupby_token sums)
  /\ (forall tok, group_of tok (groupby_token sums) = filter (has_token tok) sums)
  /\ (forall t g, In (t, g) (groupby_token sums) -> g = filter (has_token t) sums).
Proof.
  destruct (groupby_token_from sums [] ltac:(constructor) ltac:(constructor))
    as (H1 & H2 & H3).
  cbv zeta in H1, H2, H3. unfold groupby_token.
  split; [exact H1|]. split; [exact H2|]. split; [exact H3|].
  intros t g Hin. rewrite <- (group_of_In t g _ H1 Hin). exact (H3 t).
Qed.

Lemma interval_sums_sorted (interval_blocks : Z) (df : list Transaction) :
  sorted_by_key (interval_sums interval_blocks df).
Proof.
  destruct (groupby_sum_from 0 EmptyString (filtered_table interval_blocks df) [])
    as [H _]; [constructor | exact H].
Qed.

Lemma same_token_interval_lt (t : string) (g : list Aggregate) :
  Forall (fun a => agg_token_type a = t) g ->
  StronglySorted key_lt g -> StronglySorted interval_lt g.
Proof.
  induction g as [|a g IH]; intros Ht Hs; [constructor|].
  inversion Ht as [|? ? Ha Hg]; subst. inversion Hs as [|? ? Hs' Hall]; subst.
  constructor; [now apply IH|].
  rewrite Forall_forall in *. intros b Hb.
  specialize (Hall b Hb). unfold key_lt in Hall. apply key_compare_lt in Hall.
  unfold interval_lt. destruct Hall as [H | [_ H]]; [exact H|].
  rewrite (Hg b Hb) in H.
  rewrite (proj2 (string_compare_eq _ _) eq_refl) in H. discriminate.
Qed.

(** X7. Every partition the detector loops over holds exactly the aggregates
    of its token, in the order of the table of sums; it is not empty, and its
    intervals are strictly ascending. *)
Theorem partition_sorted_by_interval (interval_blocks : Z) (df : list Transaction)
    (t : string) (g : list Aggregate) :
  In (t, g) (groupby_token (interval_sums interval_blocks df)) ->
  g = filter (has_token t) (interval_sums interval_blocks df)
  /\ g <> []
  /\ StronglySorted interval_lt g.
Proof.
  intros Hin.
  destruct (groupby_token_partitions (interval_sums interval_blocks df))
    as (_ & Hne & _ & Hfilter).
  pose proof (Hfilter t g Hin) as Hg.
  split; [exact Hg|]. split.
  - rewrite Forall_forall in Hne. exact (Hne (t, g) Hin).
  - apply (same_token_interval_lt t).
    + subst g. apply Forall_forall. intros a Ha. apply filter_In in Ha.
      destruct Ha as [_ Ha]. now apply String.eqb_eq in Ha.
    + subst g. apply StronglySorted_filter. apply interval_sums_sorted.
Qed.

Lemma partition_sorted_by_interval_witness :
  [ {| agg_interval := 1; agg_token_type := "T"; agg_tx_value_eth := 1 |};
    {| agg_interval := 2; agg_token_type := "T"; agg_tx_value_eth := 20 |} ]
  = filter (has_token "T") (interval_sums 50 run_with_whale)
  /\ [ {| agg_interval := 1; agg_token_type := "T"; agg_tx_value_eth := 1 |};
       {| agg_interval := 2; agg_token_type := "T"; agg_tx_value_eth := 20 |} ] <> []
  /\ StronglySorted interval_lt
       [ {| agg_interval := 1; agg_token_type := "T"; agg_tx_value_eth := 1 |};
         {| agg_interval := 2; agg_token_type := "T"; agg_tx_value_eth := 20 |} ].
Proof.
  apply (partition_sorted_by_interval 50 run_with_whale "T").
  vm_compute. left. reflexivity.
Defined.

(** X8. The partitions come in strictly ascending order of token, one per
    token, and every aggregate of the table of sums is in the partition of its
    token. *)
Theorem partitions_cover_sums (interval_blocks : Z) (df : list Transaction) :
  StronglySorted token_lt (groupby_token (interval_sums interval_blocks df))
  /\ forall a, In a (interval_sums interval_blocks df) ->
       exists g, In (agg_token_type a, g) (groupby_token (interval_sums interval_blocks df))
                 /\ In a g.
Proof.
  destruct (groupby_token_partitions (interval_sums interval_blocks df))
    as (Hs & _ & Hgroup & _).
  split; [exact Hs|]. intros a Ha.
  assert (Hin : In a (group_of (agg_token_type a)
                        (groupby_token (interval_sums interval_blocks df)))).
  { rewrite Hgroup. apply filter_In. split; [exact Ha|].
    unfold has_token. apply String.eqb_refl. }
  exists (group_of (agg_token_type a) (groupby_token (interval_sums interval_blocks df))).
  split; [|exact Hin].
  apply group_of_nonempty_In. intros E. rewrite E in Hin. contradiction.
Qed.

(** ** The detector: errors and events *)

Lemma iloc_In {A : Type} (group : list A) (k : Z) (a : A) :
  iloc group k = Ok a -> In a group.
Proof.
  unfold iloc.
  destruct ((0 <=? (if 0 <=? k then k else Z.of_nat (List.length group) + k))
            && ((if 0 <=? k then k else Z.of_nat (List.length group) + k)
                <? Z.of_nat (List.length group))); [|discriminate].
  destruct (nth_error group
              (Z.to_nat (if 0 <=? k then k else Z.of_nat (List.length group) + k)))
    as [x|] eqn:Hn; [|discriminate].
  intros H. injection H as <-. eapply nth_error_In. exact Hn.
Qed.

Lemma iloc_raises {A : Type} (group : list A) (k : Z) (e : PyError) :
  iloc group k = Raise e -> e = IndexError.
Proof.
  unfold iloc.
  destruct ((0 <=? (if 0 <=? k then k else Z.of_nat (List.length group) + k))
            && ((if 0 <=? k then k else Z.of_nat (List.length group) + k)
                <? Z.of_nat (List.length group))).
  - destruct (nth_error group
                (Z.to_nat (if 0 <=? k then k else Z.of_nat (List.length group) + k)));
      [discriminate | congruence].
  - congruence.
Qed.

Lemma iloc_beyond {A : Type} (group : list A) (k : Z) :
  Z.of_nat (List.length group) <= k -> iloc group k = Raise IndexError.
Proof.
  intros H. unfold iloc.
  replace (0 <=? k) with true by (symmetry; apply Z.leb_le; lia).
  replace (k <? Z.of_nat (List.length group)) with false
    by (symmetry; apply Z.ltb_ge; lia).
  now rewrite andb_false_r.
Qed.

Lemma for_each_invariant {A S : Type} (P : S -> Prop) (body : S -> A -> Result S)
    (xs : list A) :
  (forall s x s', In x xs -> P s -> body s x = Ok s' -> P s') ->
  forall s s', P s -> for_each body xs s = Ok s' -> P s'.
Proof.
  induction xs as [|x xs IH]; intros Hstep s s' Hs Hrun.
  - simpl in Hrun. now injection Hrun as <-.
  - cbn [for_each] in Hrun. destruct (body s x) as [s1|e] eqn:Hb; [|discriminate].
    cbn [bind] in Hrun.
    apply (IH (fun s0 x0 s0' Hin => Hstep s0 x0 s0' (or_intror Hin)) s1 s'); [|exact Hrun].
    apply (Hstep s x s1); [now left | exact Hs | exact Hb].
Qed.

Lemma for_each_total {A S : Type} (body : S -> A -> Result S) (xs : list A) :
  (forall s x, In x xs -> exists s', body s x = Ok s') ->
  forall s, exists s', for_each body xs s = Ok s'.
Proof.
  induction xs as [|x xs IH]; intros Hstep s.
  - now exists s.
  - destruct (Hstep s x (or_introl eq_refl)) as [s1 H1].
    cbn [for_each]. rewrite H1. cbn [bind].
    apply IH. intros s0 x0 Hin. apply Hstep. now right.
Qed.

Lemma for_each_raises {A S : Type} (body : S -> A -> Result S) (xs : list A)
    (err : PyError) :
  (forall s x e, body s x = Raise e -> e = err) ->
  (exists x, In x xs /\ forall s, exists e, body s x = Raise e) ->
  forall s, for_each body xs s = Raise err.
Proof.
  intros Honly. induction xs as [|x xs IH]; intros [x0 [Hin Hx0]] s.
  - contradiction.
  - cbn [for_each]. destruct (body s x) as [s1|e] eqn:Hb.
    + cbn [bind]. apply IH. destruct Hin as [-> | Hin].
      * destruct (Hx0 s) as [e He]. congruence.
      * now exists x0.
    + cbn [bind]. now rewrite (Honly s x e Hb).
Qed.

Lemma detect_position_raises (thr : Q) (L : Z) (tok : string) (g : list Aggregate)
    (acc : Events) (i : Z) (e : PyError) :
  detect_position thr L tok g acc i = Raise e -> e = IndexError.
Proof.
  unfold detect_position.
  destruct (iloc g (i - 1)) as [cur|e1] eqn:H1; cbn [bind].
  - destruct (iloc g (i - L)) as [prev|e2] eqn:H2; cbn [bind].
    + cbv zeta.
      destruct (Qltb thr (agg_tx_value_eth cur - agg_tx_value_eth prev)); [discriminate|].
      destruct (Qltb (agg_tx_value_eth cur - agg_tx_value_eth prev) (- thr)); discriminate.
    + intros H. injection H as <-. exact (iloc_raises _ _ _ H2).
  - intros H. injection H as <-. exact (iloc_raises _ _ _ H1).
Qed.

Lemma detect_position_total (thr : Q) (L : Z) (tok : string) (g : list Aggregate)
    (acc : Events) (i : Z) :
  1 <= L -> L <= i <= Z.of_nat (List.length g) ->
  exists acc', detect_position thr L tok g acc i = Ok acc'.
Proof.
  intros HL Hi.
  destruct (iloc_at_position g i ltac:(lia)) as [cur [_ Hcur]].
  destruct (iloc_at_position g (i - L + 1) ltac:(lia)) as [prev [_ Hprev]].
  replace (i - L + 1 - 1) with (i - L) in Hprev by lia.
  unfold detect_position. rewrite Hcur, Hprev. cbn [bind]. cbv zeta.
  destruct (Qltb thr (agg_tx_value_eth cur - agg_tx_value_eth prev)); [eexists; reflexivity|].
  destruct (Qltb (agg_tx_value_eth cur - agg_tx_value_eth prev) (- thr));
    eexists; reflexivity.
Qed.

Lemma detect_groups_total (thr : Q) (L : Z) (grouped : list (string * list Aggregate)) :
  1 <= L -> exists evs, detect_groups thr L grouped = Ok evs.
Proof.
  intros HL. unfold detect_groups. apply for_each_total.
  intros acc [t g] _. unfold detect_group. cbn [fst snd]. apply for_each_total.
  intros acc' i Hi. apply in_range in Hi. apply detect_position_total; lia.
Qed.

(** X9. With a lookback of at least 1 the detector returns a report for
    every table of transactions, every threshold and every interval size: no
    position it visits is outside a partition. *)
Theorem detector_returns (df : list Transaction) (pump_threshold_value : Q)
    (pump_threshold_interval interval_blocks : Z) :
  1 <= pump_threshold_interval ->
  exists report,
    detect_pump_and_dump_whale_not_included df pump_threshold_value
      pump_threshold_interval interval_blocks = Ok report.
Proof.
  intros HL. unfold detect_pump_and_dump_whale_not_included.
  destruct (detect_groups_total pump_threshold_value pump_threshold_interval
              (groupby_token (groupby_sum (filtered_table interval_blocks df))) HL)
    as [evs Hevs].
  rewrite Hevs. cbn [bind]. eexists. reflexivity.
Qed.

Lemma detector_returns_witness :
  exists report, detect_pump_and_dump_whale_not_included run_with_whale 10 2 50 = Ok report.
Proof.
  apply (detector_returns run_with_whale 10 2 50). lia.
Defined.

Lemma detect_group_nonpositive (thr : Q) (L : Z) (tok : string) (g : list Aggregate)
    (acc : Events) :
  L <= 0 -> g <> [] -> detect_group thr L acc (tok, g) = Raise IndexError.
Proof.
  intros HL Hg. unfold detect_group. cbn [fst snd].
  apply for_each_raises.
  - intros s x e. apply detect_position_raises.
  - assert (Hn : 1 <= Z.of_nat (List.length g)) by (destruct g; [congruence | simpl; lia]).
    exists (Z.of_nat (List.length g)). split; [apply in_range; lia|].
    intros s. unfold detect_position.
    destruct (iloc g (Z.of_nat (List.length g) - 1)) as [cur|e]; cbn [bind].
    + rewrite iloc_beyond by lia. cbn [bind]. now exists IndexError.
    + now exists e.
Qed.

Lemma groupby_token_first (a : Aggregate) (sums : list Aggregate) :
  exists t g rest, groupby_token (a :: sums) = (t, g) :: rest /\ g <> [].
Proof.
  destruct (groupby_token_partitions (a :: sums)) as (_ & Hne & Hgroup & _).
  destruct (groupby_token (a :: sums)) as [|[t g] rest] eqn:E.
  - specialize (Hgroup (agg_token_type a)). cbn [group_of filter] in Hgroup.
    unfold has_token in Hgroup. rewrite String.eqb_refl in Hgroup. discriminate.
  - exists t, g, rest. split; [reflexivity|].
    inversion Hne as [|? ? Hg _]; subst. exact Hg.
Qed.

(** X10. A lookback of 0 or less makes the detector raise [IndexError] as
    soon as one partition has an aggregate, and so for every table of
    transactions that yields at least one sum. *)
Theorem nonpositive_lookback_raises (df : list Transaction) (pump_threshold_value : Q)
    (pump_threshold_interval interval_blocks : Z) :
  pump_threshold_interval <= 0 ->
  interval_sums interval_blocks df <> [] ->
  detect_pump_and_dump_whale_not_included df pump_threshold_value
    pump_threshold_interval interval_blocks = Raise IndexError.
Proof.
  intros HL Hsums. unfold detect_pump_and_dump_whale_not_included.
  fold (interval_sums interval_blocks df).
  destruct (interval_sums interval_blocks df) as [|a sums]; [congruence|].
  destruct (groupby_token_first a sums) as (t & g & rest & -> & Hg).
  unfold detect_groups. cbn [for_each].
  rewrite (detect_group_nonpositive _ _ _ _ _ HL Hg). reflexivity.
Qed.

Lemma nonpositive_lookback_raises_witness :
  detect_pump_and_dump_whale_not_included run_with_whale 10 0 50 = Raise IndexError.
Proof.
  apply (nonpositive_lookback_raises run_with_whale 10 0 50).
  - lia.
  - vm_compute. discriminate.
Defined.

Lemma detect_position_lookback_one (thr : Q) (tok : string) (g : list Aggregate)
    (acc : Events) (i : Z) :
  (0 <= thr)%Q -> 1 <= i <= Z.of_nat (List.length g) ->
  detect_position thr 1 tok g acc i = Ok acc.
Proof.
  intros Hthr Hi.
  destruct (iloc_at_position g i Hi) as [cur [_ Hcur]].
  unfold detect_position. rewrite Hcur. cbn [bind]. cbv zeta.
  replace (Qltb thr (agg_tx_value_eth cur - agg_tx_value_eth cur)) with false.
  - replace (Qltb (agg_tx_value_eth cur - agg_tx_value_eth cur) (- thr)) with false;
      [reflexivity|].
    symmetry. destruct (Qltb (agg_tx_value_eth cur - agg_tx_value_eth cur) (- thr)) eqn:H;
      [|reflexivity].
    apply Qltb_lt in H. lra.
  - symmetry. destruct (Qltb thr (agg_tx_value_eth cur - agg_tx_value_eth cur)) eqn:H;
      [|reflexivity].
    apply Qltb_lt in H. lra.
Qed.

Lemma for_each_unchanged {A S : Type} (body : S -> A -> Result S) (xs : list A) :
  (forall s x, In x xs -> body s x = Ok s) -> forall s, for_each body xs s = Ok s.
Proof.
  induction xs as [|x xs IH]; intros H s; [reflexivity|].
  cbn [for_each]. rewrite (H s x (or_introl eq_refl)). cbn [bind].
  apply IH. intros s0 x0 Hin. apply H. now right.
Qed.

(** X11. With a lookback of 1 and a non-negative threshold nothing is ever
    flagged: every aggregate is compared with itself, and the report is
    empty. *)
Theorem lookback_one_flags_nothing (df : list Transaction) (pump_threshold_value : Q)
    (interval_blocks : Z) :
  (0 <= pump_threshold_value)%Q ->
  detect_pump_and_dump_whale_not_included df pump_threshold_value 1 interval_blocks
  = Ok {| pump_intervals := []; dump_intervals := [];
          pump_details := []; dump_details := [] |}.
Proof.
  intros Hthr. unfold detect_pump_and_dump_whale_not_included.
  assert (H : detect_groups pump_threshold_value 1
                (groupby_token (groupby_sum (filtered_table interval_blocks df)))
              = Ok ([], [])).
  { unfold detect_groups. apply for_each_unchanged.
    intros acc [t g] _. unfold detect_group. cbn [fst snd].
    apply for_each_unchanged. intros acc' i Hi. apply in_range in Hi.
    apply detect_position_lookback_one; [exact Hthr | lia]. }
  rewrite H. reflexivity.
Qed.

Lemma lookback_one_flags_nothing_witness :
  detect_pump_and_dump_whale_not_included run_with_whale 10 1 50
  = Ok {| pump_intervals := []; dump_intervals := [];
          pump_details := []; dump_details := [] |}.
Proof.
  apply (lookback_one_flags_nothing run_with_whale 10 50).
  unfold Qle. simpl. lia.
Defined.

(** What both lists of events keep true while the loop runs. *)
Lemma detect_position_events (thr : Q) (L : Z) (grouped : list (string * list Aggregate))
    (tok : string) (g : list Aggregate) (acc acc' : Events) (i : Z) :
  In (tok, g) grouped ->
  detect_position thr L tok g acc i = Ok acc' ->
  (forall e, In e (fst acc) -> from_partition grouped e /\ (thr < difference e)%Q) ->
  (forall e, In e (snd acc) ->
     from_partition grouped e /\ (difference e < - thr)%Q /\ ~ (thr < difference e)%Q) ->
  (forall e, In e (fst acc') -> from_partition grouped e /\ (thr < difference e)%Q)
  /\ (forall e, In e (snd acc') ->
        from_partition grouped e /\ (difference e < - thr)%Q /\ ~ (thr < difference e)%Q).
Proof.
  intros Hin Hstep Hp Hd. unfold detect_position in Hstep.
  destruct (iloc g (i - 1)) as [cur|] eqn:Hcur; [|discriminate].
  destruct (iloc g (i - L)) as [prev|] eqn:Hprev; [|discriminate].
  cbn [bind] in Hstep. cbv zeta in Hstep.
  apply iloc_In in Hcur. apply iloc_In in Hprev.
  assert (Hfrom : from_partition grouped
            {| ev_interval := agg_interval cur; ev_token_type := tok;
               current_interval_sum := agg_tx_value_eth cur;
               previous_interval_sum := agg_tx_value_eth prev;
               difference := (agg_tx_value_eth cur - agg_tx_value_eth prev)%Q |}).
  { exists g, cur, prev. repeat split; assumption. }
  destruct (Qltb thr (agg_tx_value_eth cur - agg_tx_value_eth prev)) eqn:Hpump.
  - injection Hstep as <-. cbn [fst snd]. split; [|exact Hd].
    intros e He. apply in_app_or in He. destruct He as [He | [<- | []]]; [now apply Hp|].
    split; [exact Hfrom|]. now apply Qltb_lt in Hpump.
  - destruct (Qltb (agg_tx_value_eth cur - agg_tx_value_eth prev) (- thr)) eqn:Hdump.
    + injection Hstep as <-. cbn [fst snd]. split; [exact Hp|].
      intros e He. apply in_app_or in He. destruct He as [He | [<- | []]]; [now apply Hd|].
      split; [exact Hfrom|]. cbn [difference]. split; [now apply Qltb_lt in Hdump|].
      intros H. apply Qltb_lt in H. congruence.
    + injection Hstep as <-. split; assumption.
Qed.

Lemma detect_groups_events (thr : Q) (L : Z) (grouped : list (string * list Aggregate))
    (pumps dumps : list Event) :
  detect_groups thr L grouped = Ok (pumps, dumps) ->
  (forall e, In e pumps -> from_partition grouped e /\ (thr < difference e)%Q)
  /\ (forall e, In e dumps ->
        from_partition grouped e /\ (difference e < - thr)%Q /\ ~ (thr < difference e)%Q).
Proof.
  intros Hrun. unfold detect_groups in Hrun.
  apply (for_each_invariant
           (fun acc : Events =>
              (forall e, In e (fst acc) -> from_partition grouped e /\ (thr < difference e)%Q)
              /\ (forall e, In e (snd acc) ->
                    from_partition grouped e /\ (difference e < - thr)%Q
                    /\ ~ (thr < difference e)%Q))
           (detect_group thr L) grouped) in Hrun.
  - exact Hrun.
  - intros acc [t g] acc' Hin Hacc Hgroup. unfold detect_group in Hgroup.
    cbn [fst snd] in Hgroup.
    apply (for_each_invariant
             (fun acc : Events =>
                (forall e, In e (fst acc) ->
                   from_partition grouped e /\ (thr < difference e)%Q)
                /\ (forall e, In e (snd acc) ->
                      from_partition grouped e /\ (difference e < - thr)%Q
                      /\ ~ (thr < difference e)%Q))
             (detect_position thr L t g)
             (range L (Z.of_nat (List.length g) + 1)) ) in Hgroup.
    + exact Hgroup.
    + intros s i s' _ [Hp Hd] Hstep.
      exact (detect_position_events thr L grouped t g s s' i Hin Hstep Hp Hd).
    + exact Hacc.
  - split; intros e [].
Qed.

(** X12. Whatever the detector reports was built from two aggregates of the
    partition of the event's token: the interval and the current sum are
    those of one, the previous sum is that of the other, and the difference
    is the one minus the other.  A pump has a difference above the threshold;
    a dump has a difference below the negated threshold and not above the
    threshold. *)
Theorem reported_events_justified (df : list Transaction) (pump_threshold_value : Q)
    (pump_threshold_interval interval_blocks : Z) (report : Report) :
  detect_pump_and_dump_whale_not_included df pump_threshold_value
    pump_threshold_interval interval_blocks = Ok report ->
  (forall e, In e (pump_intervals report) ->
     from_partition (groupby_token (interval_sums interval_blocks df)) e
     /\ (pump_threshold_value < difference e)%Q)
  /\ (forall e, In e (dump_intervals report) ->
        from_partition (groupby_token (interval_sums interval_blocks df)) e
        /\ (difference e < - pump_threshold_value)%Q
        /\ ~ (pump_threshold_value < difference e)%Q).
Proof.
  unfold detect_pump_and_dump_whale_not_included. fold (interval_sums interval_blocks df).
  destruct (detect_groups pump_threshold_value pump_threshold_interval
              (groupby_token (interval_sums interval_blocks df))) as [[pumps dumps]|e] eqn:Hrun;
    [|discriminate].
  cbn [bind fst snd]. intros H. injection H as <-. cbn [pump_intervals dump_intervals].
  exact (detect_groups_events _ _ _ _ _ Hrun).
Qed.

Lemma reported_events_justified_witness :
  exists report,
    detect_pump_and_dump_whale_not_included run_with_whale 10 2 50 = Ok report
    /\ (forall e, In e (pump_intervals report) ->
          from_partition (groupby_token (interval_sums 50 run_with_whale)) e
          /\ (10 < difference e)%Q).
Proof.
  eexists. split; [vm_compute; reflexivity|].
  apply (reported_events_justified run_with_whale 10 2 50). vm_compute. reflexivity.
Defined.

(** ** The rows shown: never empty, in block order *)

Lemma lookup_sum_In (a : Aggregate) (sums : list Aggregate) :
  In a sums -> lookup_sum (agg_interval a) (agg_token_type a) sums <> None.
Proof.
  induction sums as [|b sums IH]; intros Hin; [contradiction|].
  cbn [lookup_sum].
  destruct ((agg_interval b =? agg_interval a)
            && String.eqb (agg_token_type b) (agg_token_type a)) eqn:Hk; [discriminate|].
  destruct Hin as [-> | Hin]; [|now apply IH].
  rewrite Z.eqb_refl, String.eqb_refl in Hk. discriminate.
Qed.

(** An aggregate of the table of sums has a row behind it. *)
Lemma interval_sums_row (interval_blocks : Z) (df : list Transaction) (a : Aggregate) :
  In a (interval_sums interval_blocks df) ->
  exists r, In r (filtered_table interval_blocks df)
            /\ interval r = agg_interval a
            /\ tx_token_type (row_tx r) = Some (agg_token_type a).
Proof.
  intros Hin. apply lookup_sum_In in Hin.
  destruct (groupby_sum_from (agg_interval a) (agg_token_type a)
              (filtered_table interval_blocks df) []) as [_ Hlookup]; [constructor|].
  cbv zeta in Hlookup. unfold interval_sums, groupby_sum in Hin. rewrite Hlookup in Hin.
  unfold values_of in Hin.
  destruct (filter (has_key (agg_interval a) (agg_token_type a))
              (filtered_table interval_blocks df)) as [|r rows] eqn:Hf.
  - now elim Hin.
  - assert (Hr : In r (filter (has_key (agg_interval a) (agg_token_type a))
                         (filtered_table interval_blocks df))) by (rewrite Hf; now left).
    apply filter_In in Hr. destruct Hr as [Hr Hk].
    unfold has_key in Hk. apply andb_true_iff in Hk. destruct Hk as [Hi Ht].
    exists r. split; [exact Hr|]. split; [now apply Z.eqb_eq | now apply token_is_spec].
Qed.

(** X13. Every event of a report comes with rows: among the rows shown for
    it there is a transaction of the event's token in the event's own
    interval. *)
Theorem flagged_interval_has_rows (df : list Transaction) (pump_threshold_value : Q)
    (pump_threshold_interval interval_blocks : Z) (report : Report)
    (ev : Event) (rows : list Row) :
  detect_pump_and_dump_whale_not_included df pump_threshold_value
    pump_threshold_interval interval_blocks = Ok report ->
  In (ev, rows) (pump_details report ++ dump_details report) ->
  exists r, In r rows
            /\ interval r = ev_interval ev
            /\ tx_token_type (row_tx r) = Some (ev_token_type ev).
Proof.
  intros Hrun Hin.
  destruct (report_details _ _ _ _ _ Hrun) as [Hpd Hdd].
  assert (Hev : (In ev (pump_intervals report) \/ In ev (dump_intervals report))
                /\ rows = relevant_transactions (filtered_table interval_blocks df) ev).
  { apply in_app_or in Hin. rewrite Hpd, Hdd in Hin. unfold details in Hin.
    rewrite !in_map_iff in Hin.
    destruct Hin as [(e & E & He) | (e & E & He)]; injection E as -> <-; tauto. }
  destruct Hev as [Hev ->].
  assert (Hfrom : from_partition (groupby_token (interval_sums interval_blocks df)) ev).
  { unfold detect_pump_and_dump_whale_not_included in Hrun.
    fold (interval_sums interval_blocks df) in Hrun.
    destruct (detect_groups pump_threshold_value pump_threshold_interval
                (groupby_token (interval_sums interval_blocks df)))
      as [[pumps dumps]|e] eqn:Hg; [|discriminate].
    cbn [bind fst snd] in Hrun. injection Hrun as <-.
    cbn [pump_intervals dump_intervals] in Hev.
    destruct (detect_groups_events _ _ _ _ _ Hg) as [Hp Hd].
    destruct Hev as [Hev | Hev]; [apply (Hp ev Hev) | apply (Hd ev Hev)]. }
  destruct Hfrom as (g & cur & prev & Hg & Hcur & _ & Hi & _).
  destruct (groupby_token_partitions (interval_sums interval_blocks df)) as (_ & _ & _ & Hf).
  rewrite (Hf _ _ Hg) in Hcur. apply filter_In in Hcur. destruct Hcur as [Hcur Htok].
  unfold has_token in Htok. apply String.eqb_eq in Htok.
  destruct (interval_sums_row interval_blocks df cur Hcur) as (r & Hr & Hri & Hrt).
  exists r. rewrite Hi, <- Htok. split; [|split; assumption].
  unfold relevant_transactions. apply filter_In. split; [exact Hr|].
  rewrite !andb_true_iff, !Z.leb_le, token_is_spec. rewrite Hi, <- Htok. repeat split.
  - lia.
  - lia.
  - exact Hrt.
Qed.

Lemma flagged_interval_has_rows_witness :
  exists ev rows r,
    In (ev, rows) [( {| ev_interval := 2; ev_token_type := "T"; current_interval_sum := 20;
                        previous_interval_sum := 1; difference := 19 |},
                     [row_of 50 (transfer 3 "a" 1 "T"); row_of 50 (transfer 55 "b" 20 "T")] )]
    /\ In r rows /\ interval r = ev_interval ev
    /\ tx_token_type (row_tx r) = Some (ev_token_type ev).
Proof.
  destruct (flagged_interval_has_rows run_with_whale 10 2 50
              {| pump_intervals := [ {| ev_interval := 2; ev_token_type := "T";
                                        current_interval_sum := 20;
                                        previous_interval_sum := 1; difference := 19 |} ];
                 dump_intervals := [];
                 pump_details :=
                   [( {| ev_interval := 2; ev_token_type := "T"; current_interval_sum := 20;
                         previous_interval_sum := 1; difference := 19 |},
                      [row_of 50 (transfer 3 "a" 1 "T");
                       row_of 50 (transfer 55 "b" 20 "T")] )];
                 dump_details := [] |}
              {| ev_interval := 2; ev_token_type := "T"; current_interval_sum := 20;
                 previous_interval_sum := 1; difference := 19 |}
              [row_of 50 (transfer 3 "a" 1 "T"); row_of 50 (transfer 55 "b" 20 "T")])
    as (r & Hr & Hi & Ht).
  - vm_compute. reflexivity.
  - simpl. left. reflexivity.
  - do 3 eexists. split; [left; reflexivity|]. split; [exact Hr|]. split; [exact Hi | exact Ht].
Defined.

Lemma StronglySorted_map {A B : Type} (R : A -> A -> Prop) (R' : B -> B -> Prop)
    (f : A -> B) (l : list A) :
  (forall x y, R x y -> R' (f x) (f y)) ->
  StronglySorted R l -> StronglySorted R' (map f l).
Proof.
  intros Hf. induction l as [|x l IH]; intros H; [constructor|].
  inversion H as [|? ? Hl Hall]; subst. cbn [map].
  constructor; [now apply IH|].
  apply Forall_map. eapply Forall_impl; [|exact Hall]. intros y. apply Hf.
Qed.

(** X14. The rows shown for an event come in ascending order of block
    number. *)
Theorem relevant_transactions_in_block_order (interval_blocks : Z)
    (df : list Transaction) (ev : Event) :
  StronglySorted row_block_le
    (relevant_transactions (filtered_table interval_blocks df) ev).
Proof.
  unfold relevant_transactions. apply StronglySorted_filter.
  unfold filtered_table, add_interval.
  apply (StronglySorted_map block_le row_block_le).
  - intros x y H. exact H.
  - apply StronglySorted_filter. apply sort_values_sorted.
Qed.

(** ** Transactions without a token *)






(** ** Value conversion: what fails and what comes out *)

Lemma long_from_string_raises (text : string) (e : PyError) :
  long_from_string text = Raise e -> e = ValueError.
Proof.
  unfold long_from_string. intros H.
  repeat match type of H with
         | context [match ?x with _ => _ end] => destruct x
         end;
    congruence.
Qed.

(** The parser on two strings: a byte 28 after the digits is no white space
    for it, and a fullwidth digit one is the digit 1. *)
Lemma int_base16_samples :
  int_base16 two_scripts (String "0" (String "x" (String "1" (String "f"
    (String (ascii_of_nat 28) EmptyString))))) = Raise ValueError
  /\ int_base16 two_scripts fullwidth_one = Ok 1
  /\ int_base16 two_scripts "0x1f " = Ok 31.
Proof. repeat split; reflexivity. Qed.

(** X16. On a value within the range of a double, [safe_eth_conversion]
    fails in one way only: with [ValueError], on a string that starts with
    [0x] and that [int(value, 16)] rejects. *)
Theorem safe_eth_conversion_fails_on_hex_only (unicode_decimal : Z -> option Z)
    (value : PyValue) (e : PyError) :
  within_double value = true ->
  safe_eth_conversion unicode_decimal value = Raise e ->
  e = ValueError
  /\ exists s, value = PyStr s /\ startswith s "0x" = true
               /\ int_base16 unicode_decimal s = Raise ValueError.
Proof.
  intros _.
  destruct value as [| b | n | x | s | |]; simpl; try discriminate.
  destruct (startswith s "0x") eqn:Hp; [|discriminate].
  destruct (int_base16 unicode_decimal s) as [n|e'] eqn:Hn; simpl; [discriminate|].
  intros H. injection H as <-.
  pose proof (long_from_string_raises _ e' Hn) as He. subst e'.
  split; [reflexivity|]. exists s. split; [reflexivity|]. split; [exact Hp | exact Hn].
Qed.

Lemma safe_eth_conversion_fails_on_hex_only_witness :
  ValueError = ValueError
  /\ exists s, PyStr "0xzz" = PyStr s /\ startswith s "0x" = true
               /\ int_base16 two_scripts s = Raise ValueError.
Proof.
  apply (safe_eth_conversion_fails_on_hex_only two_scripts (PyStr "0xzz") ValueError);
    reflexivity.
Defined.

Lemma hex_digit_range (c : ascii) (d : Z) : hex_digit c = Some d -> 0 <= d <= 15.
Proof.
  unfold hex_digit.
  destruct ((48 <=? Z.of_nat (nat_of_ascii c)) && (Z.of_nat (nat_of_ascii c) <=? 57)) eqn:H1.
  - intros H. injection H as <-. apply andb_true_iff in H1. lia.
  - destruct ((97 <=? Z.of_nat (nat_of_ascii c)) && (Z.of_nat (nat_of_ascii c) <=? 102))
      eqn:H2.
    + intros H. injection H as <-. apply andb_true_iff in H2. lia.
    + destruct ((65 <=? Z.of_nat (nat_of_ascii c)) && (Z.of_nat (nat_of_ascii c) <=? 70))
        eqn:H3; [|discriminate].
      intros H. injection H as <-. apply andb_true_iff in H3. lia.
Qed.

Lemma int_digits_range (fuel : nat) :
  forall s acc n,
    (String.length s <= fuel)%nat -> 0 <= acc ->
    int_digits s acc = Some n ->
    acc <= n < (acc + 1) * 16 ^ Z.of_nat (String.length s).
Proof.
  induction fuel as [|fuel IH]; intros s acc n Hlen Hacc Hrun.
  - destruct s; [|simpl in Hlen; lia]. simpl in *. injection Hrun as <-. lia.
  - destruct s as [|c s']; [simpl in *; injection Hrun as <-; lia|].
    cbn [int_digits] in Hrun. cbn [String.length] in Hlen |- *.
    rewrite Nat2Z.inj_succ, Z.pow_succ_r by lia.
    pose proof (Z.pow_pos_nonneg 16 (Z.of_nat (String.length s')) ltac:(lia) ltac:(lia))
      as Hpow.
    destruct (hex_digit c) as [d|] eqn:Hd.
    + apply hex_digit_range in Hd.
      apply IH in Hrun; [|lia|lia]. nia.
    + destruct (Ascii.eqb c "_").
      * destruct s' as [|c' s'']; [discriminate|].
        destruct (hex_digit c') as [d|] eqn:Hd'; [|discriminate].
        apply hex_digit_range in Hd'.
        apply IH in Hrun; [|simpl in Hlen; lia|lia].
        cbn [String.length] in Hpow |- *.
        rewrite Nat2Z.inj_succ, Z.pow_succ_r in Hpow |- * by lia. nia.
      * destruct (is_c_space c); [|discriminate].
        destruct (all_c_space s'); [|discriminate].
        injection Hrun as <-. nia.
Qed.

Lemma long_from_string_range (text : string) (n : Z) :
  long_from_string text = Ok n ->
  (2 <= String.length text)%nat
  /\ 0 <= n < 16 ^ (Z.of_nat (String.length text) - 2).
Proof.
  unfold long_from_string. intros H.
  destruct text as [|c0 [|x rest]];
    [discriminate H | destruct c0 as [[] [] [] [] [] [] [] []]; discriminate H |].
  destruct c0 as [[] [] [] [] [] [] [] []]; try discriminate H.
  destruct (Ascii.eqb x "x" || Ascii.eqb x "X"); [|discriminate H].
  assert (Hbody : forall body,
             (String.length body <= String.length rest)%nat ->
             int_first_digit body = Some n ->
             0 <= n < 16 ^ Z.of_nat (String.length rest)).
  { intros body Hlen Hrun. unfold int_first_digit in Hrun.
    destruct body as [|c s']; [discriminate|].
    destruct (hex_digit c) as [d|] eqn:Hd; [|discriminate].
    apply hex_digit_range in Hd.
    apply (int_digits_range (String.length s')) in Hrun; [|lia|lia].
    cbn [String.length] in Hlen.
    assert (Hmono : 16 ^ Z.of_nat (S (String.length s'))
                    <= 16 ^ Z.of_nat (String.length rest))
      by (apply Z.pow_le_mono_r; lia).
    rewrite Nat2Z.inj_succ, Z.pow_succ_r in Hmono by lia.
    pose proof (Z.pow_pos_nonneg 16 (Z.of_nat (String.length s')) ltac:(lia) ltac:(lia)).
    nia. }
  cbn [String.length]. split; [lia|].
  replace (Z.of_nat (S (S (String.length rest))) - 2) with (Z.of_nat (String.length rest))
    by lia.
  cbv zeta in H.
  destruct (int_first_digit match rest with
                            | String "_" rest' => rest'
                            | _ => rest
                            end) as [m|] eqn:Hrun; [|discriminate H].
  injection H as <-.
  apply (fun Hlen => Hbody _ Hlen Hrun).
  destruct rest as [|[[] [] [] [] [] [] [] []] r]; simpl; lia.
Qed.

Lemma code_points_ascii (s : string) :
  isascii s = true -> List.length (code_points s) = String.length s.
Proof.
  induction s as [|c s IH]; [reflexivity|].
  cbn [isascii code_points]. intros H. apply andb_true_iff in H. destruct H as [Hc Hs].
  rewrite Hc. cbn [List.length String.length]. now rewrite IH.
Qed.

Lemma to_ascii_length (unicode_decimal : Z -> option Z) (cps : list Z) :
  (String.length (to_ascii unicode_decimal cps) <= List.length cps)%nat.
Proof.
  induction cps as [|cp cps IH]; [simpl; lia|].
  cbn [to_ascii List.length].
  destruct (cp <? 127); [cbn [String.length]; lia|].
  destruct (unicode_space cp); [cbn [String.length]; lia|].
  destruct (unicode_decimal cp); cbn [String.length]; lia.
Qed.

Lemma transform_length (unicode_decimal : Z -> option Z) (value : string) :
  (String.length (transform_decimal_and_space unicode_decimal value)
   <= List.length (code_points value))%nat.
Proof.
  unfold transform_decimal_and_space. destruct (isascii value) eqn:Ha.
  - rewrite (code_points_ascii value Ha). lia.
  - apply to_ascii_length.
Qed.

(** X17. A number read from a string with the prefix [0x] is never
    negative and is below 16 to the number of characters after the prefix. *)
Theorem int_base16_range (unicode_decimal : Z -> option Z) (value : string) (n : Z) :
  int_base16 unicode_decimal value = Ok n ->
  0 <= n < 16 ^ (Z.of_nat (List.length (code_points value)) - 2).
Proof.
  unfold int_base16. intros H.
  apply long_from_string_range in H. destruct H as [H2 [H0 Hn]].
  pose proof (transform_length unicode_decimal value) as Hlen.
  split; [exact H0|].
  eapply Z.lt_le_trans; [exact Hn|].
  apply Z.pow_le_mono_r; lia.
Qed.

Lemma int_base16_range_witness :
  0 <= 1 < 16 ^ (Z.of_nat (List.length (code_points fullwidth_one)) - 2).
Proof.
  apply (int_base16_range two_scripts fullwidth_one 1). reflexivity.
Defined.

Lemma tx_value_eth_of_divisible (v : PyValue) :
  (divisible v = true -> exists q, tx_value_eth_of v = Ok q /\ (q = None <-> v = PyNone))
  /\ (divisible v = false -> tx_value_eth_of v = Raise TypeError).
Proof.
  destruct v; simpl; split; intros H; try discriminate; try reflexivity;
    eexists; (split; [reflexivity|]); split; intros E; try discriminate E; reflexivity.
Qed.

(** X18. With raw values within the range of a double, one string, list or
    dictionary among them makes the division of the value column raise
    [TypeError]; a hexadecimal string that [safe_eth_conversion] would convert
    is such a value. *)
Theorem value_column_rejects_strings (df : list Flattened) :
  Forall (fun f => within_double (f_tx_value f) = true) df ->
  Exists (fun f => divisible (f_tx_value f) = false) df ->
  add_tx_value_eth df = Raise TypeError.
Proof.
  intros _ H.
  assert (Hcol : divide_column df = Raise TypeError).
  { induction df as [|f df IH]; [inversion H|].
    cbn [divide_column]. unfold with_value_eth.
    destruct (divisible (f_tx_value f)) eqn:Hd.
    - destruct (proj1 (tx_value_eth_of_divisible _) Hd) as [q [Hq _]]. rewrite Hq.
      cbn [bind]. inversion H as [? ? Hf | ? ? Hrest]; subst; [congruence|].
      rewrite (IH Hrest). reflexivity.
    - rewrite (proj2 (tx_value_eth_of_divisible _) Hd). reflexivity. }
  destruct df; [inversion H | exact Hcol].
Qed.

Lemma value_column_rejects_strings_witness :
  add_tx_value_eth hex_valued = Raise TypeError
  /\ exists v, safe_eth_conversion two_scripts (PyStr "0x10") = Ok v.
Proof.
  split.
  - apply (value_column_rejects_strings hex_valued).
    + repeat constructor.
    + apply Exists_cons_tl. apply Exists_cons_hd. reflexivity.
  - eexists. reflexivity.
Defined.

Lemma divide_column_of_numbers (df : list Flattened) :
  Forall (fun f => numeric (f_tx_value f) = true) df ->
  exists ts,
    divide_column df = Ok ts
    /\ map block_number ts = map f_block_number df
    /\ map tx_hash ts = map f_tx_hash df
    /\ map tx_token_type ts = map f_tx_token_type df
    /\ Forall (fun t => tx_value_eth t <> None) ts.
Proof.
  induction df as [|f df IH]; intros H.
  - exists []. repeat split. constructor.
  - inversion H as [|? ? Hf Hrest]; subst.
    destruct (IH Hrest) as (ts & Hts & Hb & Hh & Ht & Hv).
    assert (Hq : exists q, tx_value_eth_of (f_tx_value f) = Ok (Some q)).
    { destruct (f_tx_value f); try discriminate Hf; eexists; reflexivity. }
    destruct Hq as [q Hq].
    eexists. split.
    + cbn [divide_column]. unfold with_value_eth. rewrite Hq. cbn [bind].
      rewrite Hts. cbn [bind]. reflexivity.
    + cbn [map block_number tx_hash tx_token_type]. rewrite Hb, Hh, Ht.
      repeat split. constructor; [discriminate | exact Hv].
Qed.

(** X19. When the table has at least one row and every raw value is a number
    within the range of a double, the value column is computed for every row:
    the rows keep their order, block number, hash and token, and every row
    has a value.  A table without rows has no such column, and the access
    raises [KeyError]. *)
Theorem value_column_of_numbers (df : list Flattened) :
  df <> [] ->
  Forall (fun f => within_double (f_tx_value f) = true) df ->
  Forall (fun f => numeric (f_tx_value f) = true) df ->
  (exists ts,
     add_tx_value_eth df = Ok ts
     /\ map block_number ts = map f_block_number df
     /\ map tx_hash ts = map f_tx_hash df
     /\ map tx_token_type ts = map f_tx_token_type df
     /\ Forall (fun t => tx_value_eth t <> None) ts)
  /\ add_tx_value_eth [] = Raise KeyError.
Proof.
  intros Hne _ H. split; [|reflexivity].
  destruct df as [|f df]; [congruence|].
  exact (divide_column_of_numbers (f :: df) H).
Qed.

Lemma value_column_of_numbers_witness :
  (exists ts,
     add_tx_value_eth numeric_valued = Ok ts
     /\ map block_number ts = map f_block_number numeric_valued
     /\ map tx_hash ts = map f_tx_hash numeric_valued
     /\ map tx_token_type ts = map f_tx_token_type numeric_valued
     /\ Forall (fun t => tx_value_eth t <> None) ts)
  /\ add_tx_value_eth [] = Raise KeyError.
Proof.
  apply (value_column_of_numbers numeric_valued).
  - discriminate.
  - repeat constructor.
  - repeat constructor.
Defined.

(** ** Intervals as buckets *)

(** X20. For a positive interval size, the interval [k] holds exactly the
    blocks from [(k - 1) * interval_blocks] up to, not including,
    [k * interval_blocks], so two blocks have the same interval exactly when
    they lie in one such bucket. *)
Theorem interval_is_bucket (interval_blocks bn k : Z) :
  0 < interval_blocks ->
  (interval_of interval_blocks bn = k
   <-> (k - 1) * interval_blocks <= bn < k * interval_blocks)
  /\ forall bn',
       interval_of interval_blocks bn = interval_of interval_blocks bn'
       <-> exists j, (j - 1) * interval_blocks <= bn < j * interval_blocks
                     /\ (j - 1) * interval_blocks <= bn' < j * interval_blocks.
Proof.
  intros Hpos.
  assert (Hiff : forall b j, interval_of interval_blocks b = j
                             <-> (j - 1) * interval_blocks <= b < j * interval_blocks).
  { intros b j. split.
    - intros <-. now apply interval_of_bounds.
    - intros Hb. unfold interval_of.
      assert (b / interval_blocks = j - 1); [|lia].
      symmetry. apply (Z.div_unique b interval_blocks (j - 1) (b - (j - 1) * interval_blocks));
        [left|]; lia. }
  split; [apply Hiff|].
  intros bn'. split.
  - intros E. exists (interval_of interval_blocks bn). split.
    + now apply interval_of_bounds.
    + rewrite E. now apply interval_of_bounds.
  - intros (j & H1 & H2). apply Hiff in H1. apply Hiff in H2. congruence.
Qed.

Lemma interval_is_bucket_witness :
  (interval_of 50 120 = 3 <-> (3 - 1) * 50 <= 120 < 3 * 50)
  /\ forall bn',
       interval_of 50 120 = interval_of 50 bn'
       <-> exists j, (j - 1) * 50 <= 120 < j * 50 /\ (j - 1) * 50 <= bn' < j * 50.
Proof.
  apply (interval_is_bucket 50 120 3). lia.
Defined.

(** ** Flattening a record *)

Lemma get_dict (items : list (string * Records.Json)) (key : string)
    (default : Records.Json) :
  Records.get (Records.JDict items) key default = Records.Done (child items key default).
Proof. reflexivity. Qed.

Lemma is_dict_inv (v : Records.Json) :
  is_dict v = true -> exists items, v = Records.JDict items.
Proof. destruct v; try discriminate. intros _. now eexists. Qed.

Lemma get_not_dict (v : Records.Json) (key : string) (default : Records.Json) :
  is_dict v = false -> Records.get v key default = Records.Fail Records.AttributeError.
Proof. destruct v; try reflexivity. discriminate. Qed.

Lemma log_entries_of_dicts (items titems : list (string * Records.Json))
    (logs : list Records.Json) :
  Forall (fun l => is_dict l = true) logs ->
  exists entries,
    Records.log_entries (Records.JDict items) (Records.JDict titems) logs
    = Records.Done entries
    /\ map Records.LogEntry.address entries = map (fun l => field l "address") logs
    /\ Forall (fun e => Records.LogEntry.tx_hash e = child titems "hash" Records.JNull
                        /\ Records.LogEntry.block_number e
                           = child items "block_number" Records.JNull) entries.
Proof.
  induction logs as [|l logs IH]; intros H.
  - exists []. repeat split. constructor.
  - inversion H as [|? ? Hl Hrest]; subst.
    destruct (IH Hrest) as (entries & Hrun & Haddr & Hback).
    destruct (is_dict_inv l Hl) as [litems ->].
    eexists. split.
    + cbn [Records.log_entries]. unfold Records.log_entry. rewrite !get_dict.
      cbn [Records.and_then]. rewrite Hrun. cbn [Records.and_then]. reflexivity.
    + split.
      * cbn [map Records.LogEntry.address field]. now rewrite Haddr.
      * constructor; [split; reflexivity | exact Hback].
Qed.

(** X21. A record whose transaction and receipt, when present, are
    dictionaries and whose logs, when present, are a list of dictionaries is
    flattened without error.  Missing keys give null fields; the token type
    is the address of the first log, null without logs; there is one log
    entry per log, in order, and each carries the hash and the block number
    of the record. *)
Theorem flatten_well_formed_record (items : list (string * Records.Json))
    (logs : list Records.Json) :
  well_formed items logs ->
  exists flat entries,
    Records.flatten_transaction_record (Records.JDict items) = Records.Done (flat, entries)
    /\ Records.block_number flat = child items "block_number" Records.JNull
    /\ Records.tx_hash flat = field (transaction_of items) "hash"
    /\ Records.tx_value flat = field (transaction_of items) "value"
    /\ Records.rcpt_status flat = field (receipt_of items) "status"
    /\ Records.tx_token_type flat
       = match logs with
         | [] => Records.JNull
         | l0 :: _ => field l0 "address"
         end
    /\ map Records.LogEntry.address entries = map (fun l => field l "address") logs
    /\ Forall (fun e => Records.LogEntry.tx_hash e = Records.tx_hash flat
                        /\ Records.LogEntry.block_number e = Records.block_number flat)
         entries.
Proof.
  intros (Htx & Hrc & Hlogs & Hall).
  destruct (is_dict_inv _ Htx) as [titems Et].
  destruct (is_dict_inv _ Hrc) as [ritems Er].
  unfold logs_of in Hlogs. rewrite Er in Hlogs.
  destruct (log_entries_of_dicts items titems logs Hall) as (entries & Hrun & Haddr & Hback).
  assert (Htok : (if Records.truthy (Records.JList logs)
                  then Records.and_then (Records.first_item (Records.JList logs))
                         (fun l0 => Records.get l0 "address" Records.JNull)
                  else Records.Done Records.JNull)
                 = Records.Done match logs with
                                | [] => Records.JNull
                                | l0 :: _ => field l0 "address"
                                end).
  { destruct logs as [|l0 logs']; [reflexivity|].
    inversion Hall as [|? ? Hl0 _]; subst.
    destruct (is_dict_inv l0 Hl0) as [litems ->]. reflexivity. }
  unfold Records.flatten_transaction_record.
  rewrite !get_dict. cbn [Records.and_then].
  fold (transaction_of items). fold (receipt_of items). rewrite Et, Er.
  rewrite !get_dict. cbn [Records.and_then]. rewrite Hlogs, Htok.
  cbn [Records.and_then Records.iterate]. rewrite Hrun. cbn [Records.and_then].
  do 2 eexists. split; [reflexivity|].
  cbn [Records.block_number Records.tx_hash Records.tx_value Records.rcpt_status
       Records.tx_token_type field].
  repeat split; try assumption.
Qed.

Lemma flatten_well_formed_record_witness :
  exists flat entries,
    Records.flatten_transaction_record (Records.JDict one_log_items)
    = Records.Done (flat, entries)
    /\ Records.tx_token_type flat = Records.JStr "0xtoken"
    /\ map Records.LogEntry.address entries = [Records.JStr "0xtoken"].
Proof.
  destruct (flatten_well_formed_record one_log_items
              [Records.JDict [("address"%string, Records.JStr "0xtoken")]])
    as (flat & entries & Hrun & _ & _ & _ & _ & Htok & Haddr & _).
  - repeat split. repeat constructor.
  - exists flat, entries. split; [exact Hrun|]. split; [exact Htok | exact Haddr].
Defined.

Lemma log_entries_back_reference (items titems : list (string * Records.Json))
    (logs : list Records.Json) (entries : list Records.LogEntry.t) :
  Records.log_entries (Records.JDict items) (Records.JDict titems) logs
  = Records.Done entries ->
  Forall (fun l => is_dict l = true) logs
  /\ map Records.LogEntry.address entries = map (fun l => field l "address") logs
  /\ Forall (fun e => Records.LogEntry.tx_hash e = child titems "hash" Records.JNull
                      /\ Records.LogEntry.block_number e
                         = child items "block_number" Records.JNull) entries.
Proof.
  revert entries. induction logs as [|l logs IH]; intros entries Hrun.
  - simpl in Hrun. injection Hrun as <-. repeat split; constructor.
  - cbn [Records.log_entries] in Hrun.
    destruct (is_dict l) eqn:Hl.
    + destruct (is_dict_inv l Hl) as [litems ->].
      unfold Records.log_entry in Hrun. rewrite !get_dict in Hrun.
      cbn [Records.and_then] in Hrun.
      destruct (Records.log_entries (Records.JDict items) (Records.JDict titems) logs)
        as [rest|e] eqn:Hrest; [|discriminate].
      cbn [Records.and_then] in Hrun. injection Hrun as <-.
      destruct (IH rest eq_refl) as (H1 & H2 & H3).
      split; [constructor; [reflexivity | exact H1]|]. split.
      * cbn [map Records.LogEntry.address field]. now rewrite H2.
      * constructor; [split; reflexivity | exact H3].
    + unfold Records.log_entry in Hrun. rewrite !get_dict in Hrun.
      cbn [Records.and_then] in Hrun.
      rewrite (get_not_dict l "logIndex" Records.JNull Hl) in Hrun. discriminate.
Qed.

(** X22. Whenever a record is flattened without error, every log entry
    refers back to the hash and the block number of the flattened row, and
    the token type of the row is the address of the first log entry, or null
    when there is no log entry. *)
Theorem flatten_links_logs (record : Records.Json) (flat : Records.Flat)
    (entries : list Records.LogEntry.t) :
  Records.flatten_transaction_record record = Records.Done (flat, entries) ->
  Forall (fun e => Records.LogEntry.tx_hash e = Records.tx_hash flat
                   /\ Records.LogEntry.block_number e = Records.block_number flat) entries
  /\ Records.tx_token_type flat
     = match entries with
       | [] => Records.JNull
       | e :: _ => Records.LogEntry.address e
       end.
Proof.
  intros Hrun. unfold Records.flatten_transaction_record in Hrun.
  destruct record as [| | | | | |items]; try discriminate Hrun.
  rewrite !get_dict in Hrun. cbn [Records.and_then] in Hrun.
  fold (transaction_of items) in Hrun. fold (receipt_of items) in Hrun.
  destruct (transaction_of items) as [| | | | | |titems]; try discriminate Hrun.
  destruct (receipt_of items) as [| | | | | |ritems]; try discriminate Hrun.
  rewrite !get_dict in Hrun. cbn [Records.and_then] in Hrun.
  destruct (child ritems "logs" (Records.JList [])) as [|b|n|x|s|logs|litems] eqn:Hlogs.
  - discriminate Hrun.
  - destruct b; discriminate Hrun.
  - cbn [Records.truthy] in Hrun. destruct (negb (n =? 0)); discriminate Hrun.
  - cbn [Records.truthy] in Hrun. destruct (negb (Qeq_bool x 0)); discriminate Hrun.
  - destruct s as [|c s'].
    + cbn in Hrun. injection Hrun as <- <-. split; [constructor | reflexivity].
    + discriminate Hrun.
  - destruct logs as [|l0 logs'].
    + cbn in Hrun. injection Hrun as <- <-. split; [constructor | reflexivity].
    + cbn [Records.truthy Records.first_item Records.and_then Records.iterate] in Hrun.
      destruct (Records.get l0 "address" Records.JNull) as [tok|e] eqn:Htok;
        [|discriminate Hrun].
      cbn [Records.and_then] in Hrun.
      destruct (Records.log_entries (Records.JDict items) (Records.JDict titems)
                  (l0 :: logs')) as [es|e] eqn:Hes; [|discriminate Hrun].
      cbn [Records.and_then] in Hrun. injection Hrun as <- <-.
      destruct (log_entries_back_reference _ _ _ _ Hes) as (Hd & Haddr & Hback).
      split; [exact Hback|].
      cbn [Records.tx_token_type].
      destruct es as [|e0 es']; [discriminate Haddr|].
      cbn [map] in Haddr. injection Haddr as Ha _. rewrite Ha.
      inversion Hd as [|? ? Hl0 _]; subst.
      destruct (is_dict_inv l0 Hl0) as [l0items ->].
      rewrite get_dict in Htok. injection Htok as <-. reflexivity.
  - destruct litems as [|kv litems'].
    + cbn in Hrun. injection Hrun as <- <-. split; [constructor | reflexivity].
    + discriminate Hrun.
Qed.

Lemma flatten_links_logs_witness :
  exists flat entries,
    Records.flatten_transaction_record (Records.JDict one_log_items)
    = Records.Done (flat, entries)
    /\ Forall (fun e => Records.LogEntry.tx_hash e = Records.tx_hash flat
                        /\ Records.LogEntry.block_number e = Records.block_number flat)
         entries.
Proof.
  do 2 eexists. split; [vm_compute; reflexivity|].
  apply (flatten_links_logs (Records.JDict one_log_items)). vm_compute. reflexivity.
Defined.

(** X23. A record that is not a dictionary, or whose transaction or receipt
    is present and is not a dictionary (an explicit null, for one), makes the
    flattening raise [AttributeError]; a missing key does not. *)
Theorem flatten_attribute_error (record : Records.Json) :
  (forall items, record = Records.JDict items ->
     is_dict (transaction_of items) && is_dict (receipt_of items) = false) ->
  Records.flatten_transaction_record record = Records.Fail Records.AttributeError.
Proof.
  intros H. destruct record as [| | | | | |items]; try reflexivity.
  specialize (H items eq_refl).
  unfold Records.flatten_transaction_record.
  rewrite !get_dict. cbn [Records.and_then].
  fold (transaction_of items). fold (receipt_of items).
  destruct (is_dict (transaction_of items)) eqn:Ht.
  - destruct (is_dict_inv _ Ht) as [titems ->].
    rewrite !get_dict. cbn [Records.and_then].
    simpl in H. now rewrite (get_not_dict _ "status" Records.JNull H).
  - now rewrite (get_not_dict _ "hash" Records.JNull Ht).
Qed.

Lemma flatten_attribute_error_witness :
  Records.flatten_transaction_record (Records.JDict null_transaction_items)
  = Records.Fail Records.AttributeError
  /\ exists r, Records.flatten_transaction_record
                 (Records.JDict [("block_number"%string, Records.JInt 7)])
               = Records.Done r.
Proof.
  split.
  - apply (flatten_attribute_error (Records.JDict null_transaction_items)).
    intros items E. injection E as <-. reflexivity.
  - eexists. reflexivity.
Defined.

(** X24. With a transaction and a receipt that are dictionaries, logs that
    are null, a boolean or a number make the flattening raise [TypeError]. *)
Theorem flatten_scalar_logs (items : list (string * Records.Json)) :
  is_dict (transaction_of items) = true ->
  is_dict (receipt_of items) = true ->
  scalar (logs_of items) = true ->
  Records.flatten_transaction_record (Records.JDict items) = Records.Fail Records.TypeError.
Proof.
  intros Htx Hrc Hlogs.
  destruct (is_dict_inv _ Htx) as [titems Et].
  destruct (is_dict_inv _ Hrc) as [ritems Er].
  unfold logs_of in Hlogs. rewrite Er in Hlogs.
  unfold Records.flatten_transaction_record.
  rewrite !get_dict. cbn [Records.and_then].
  fold (transaction_of items). fold (receipt_of items). rewrite Et, Er.
  rewrite !get_dict. cbn [Records.and_then].
  destruct (child ritems "logs" (Records.JList [])) as [|b|n|x| | |];
    try discriminate Hlogs.
  - reflexivity.
  - destruct b; reflexivity.
  - cbn [Records.truthy]. destruct (negb (n =? 0)); reflexivity.
  - cbn [Records.truthy]. destruct (negb (Qeq_bool x 0)); reflexivity.
Qed.

Lemma flatten_scalar_logs_witness :
  Records.flatten_transaction_record (Records.JDict null_logs_items)
  = Records.Fail Records.TypeError.
Proof.
  apply (flatten_scalar_logs null_logs_items); reflexivity.
Defined.

(** ** Loading the lines of a file *)

Lemma rstrip_empty (s : string) :
  Records.rstrip s = EmptyString <-> all_space s = true.
Proof.
  induction s as [|c s IH]; [split; reflexivity|].
  cbn [Records.rstrip all_space].
  destruct (Records.rstrip s) as [|c' r] eqn:Hr.
  - assert (Hs : all_space s = true) by now apply IH.
    rewrite Hs, andb_true_r. destruct (is_space c); split; congruence.
  - assert (Hs : all_space s = false).
    { destruct (all_space s) eqn:E; [|reflexivity].
      assert (H : String c' r = EmptyString) by now apply IH. discriminate H. }
    rewrite Hs, andb_false_r. split; discriminate.
Qed.

Lemma lstrip_all_space (s : string) : all_space (Records.lstrip s) = all_space s.
Proof.
  induction s as [|c s IH]; [reflexivity|].
  cbn [Records.lstrip]. destruct (is_space c) eqn:Hc.
  - cbn [all_space]. now rewrite Hc, IH.
  - reflexivity.
Qed.

Lemma strip_blank (line : string) :
  String.eqb (Records.strip line) EmptyString = blank line.
Proof.
  unfold Records.strip, blank.
  destruct (all_space line) eqn:Hs.
  - apply String.eqb_eq. apply rstrip_empty. now rewrite lstrip_all_space.
  - apply String.eqb_neq. intros E. apply rstrip_empty in E.
    rewrite lstrip_all_space in E. congruence.
Qed.

Section LoadFacts.

Variable loads : string -> Records.Try Records.Json.

Lemma load_lines_app (before after : list string) :
  forall all_tx all_logs,
    Records.load_lines loads (before ++ after) all_tx all_logs
    = Records.and_then (Records.load_lines loads before all_tx all_logs)
        (fun r => Records.load_lines loads after (fst r) (snd r)).
Proof.
  induction before as [|line before IH]; intros all_tx all_logs; [reflexivity|].
  cbn [app Records.load_lines].
  destruct (String.eqb (Records.strip line) EmptyString); [apply IH|].
  destruct (loads (Records.strip line)) as [record|e]; [|reflexivity].
  cbn [Records.and_then].
  destruct (Records.flatten_transaction_record record) as [r|e]; [|reflexivity].
  cbn [Records.and_then]. apply IH.
Qed.

Lemma load_lines_count (lines : list string) :
  forall all_tx all_logs txs logs,
    Records.load_lines loads lines all_tx all_logs = Records.Done (txs, logs) ->
    List.length txs
    = (List.length all_tx + List.length (filter (fun l => negb (blank l)) lines))%nat.
Proof.
  induction lines as [|line lines IH]; intros all_tx all_logs txs logs Hrun.
  - simpl in Hrun. injection Hrun as <- _. simpl. lia.
  - cbn [Records.load_lines] in Hrun. cbn [filter]. rewrite strip_blank in Hrun.
    destruct (blank line); cbn [negb].
    + now apply IH in Hrun.
    + destruct (loads (Records.strip line)) as [record|e]; [|discriminate].
      cbn [Records.and_then] in Hrun.
      destruct (Records.flatten_transaction_record record) as [r|e]; [|discriminate].
      cbn [Records.and_then] in Hrun. apply IH in Hrun.
      rewrite length_app in Hrun. cbn [List.length] in Hrun |- *. lia.
Qed.

Lemma load_lines_fails (lines : list string) (line : string) :
  In line lines -> blank line = false ->
  (forall record, loads (Records.strip line) = Records.Done record ->
     exists e, Records.flatten_transaction_record record = Records.Fail e) ->
  forall all_tx all_logs,
    exists e, Records.load_lines loads lines all_tx all_logs = Records.Fail e.
Proof.
  intros Hin Hb Hbad.
  induction lines as [|l lines IH]; intros all_tx all_logs; [contradiction|].
  cbn [Records.load_lines]. rewrite strip_blank.
  destruct Hin as [-> | Hin].
  - rewrite Hb. destruct (loads (Records.strip line)) as [record|e] eqn:Hl.
    + cbn [Records.and_then]. destruct (Hbad record eq_refl) as [e He].
      rewrite He. now exists e.
    + now exists e.
  - destruct (blank l); [now apply IH|].
    destruct (loads (Records.strip l)) as [record|e]; [|now exists e].
    cbn [Records.and_then].
    destruct (Records.flatten_transaction_record record) as [r|e]; [|now exists e].
    cbn [Records.and_then]. now apply IH.
Qed.

End LoadFacts.

(** X25. A line of white space only is skipped: with it or without it,
    anywhere in the file, the loader gives the same result. *)
Theorem load_skips_blank_lines (loads : string -> Records.Try Records.Json)
    (before after : list string) (line : string)
    (all_tx : list Records.Flat) (all_logs : list Records.LogEntry.t) :
  blank line = true ->
  Records.load_lines loads (before ++ line :: after) all_tx all_logs
  = Records.load_lines loads (before ++ after) all_tx all_logs.
Proof.
  intros Hb. rewrite !load_lines_app.
  destruct (Records.load_lines loads before all_tx all_logs) as [r|e]; [|reflexivity].
  cbn [Records.and_then Records.load_lines]. now rewrite strip_blank, Hb.
Qed.

Lemma load_skips_blank_lines_witness :
  Records.load_lines sample_loads (["{}"%string] ++ "   "%string :: ["{}"%string]) [] []
  = Records.load_lines sample_loads (["{}"%string] ++ ["{}"%string]) [] [].
Proof.
  apply (load_skips_blank_lines sample_loads ["{}"%string] ["{}"%string] "   " [] []).
  reflexivity.
Defined.

(** X26. When the loader returns on an ASCII text, the table of
    transactions has one row for every line of the file that is not blank. *)
Theorem load_one_row_per_line (loads : string -> Records.Try Records.Json)
    (text : string) (txs : list Records.Flat) (logs : list Records.LogEntry.t) :
  ascii_only text = true ->
  Records.load_transactions_and_logs loads text = Records.Done (txs, logs) ->
  List.length txs
  = List.length (filter (fun l => negb (blank l)) (split_lines text)).
Proof.
  intros _ Hrun. unfold Records.load_transactions_and_logs in Hrun.
  apply (load_lines_count loads) in Hrun. simpl in Hrun. exact Hrun.
Qed.

Lemma load_one_row_per_line_witness :
  exists txs logs,
    Records.load_transactions_and_logs sample_loads two_records = Records.Done (txs, logs)
    /\ List.length txs
       = List.length (filter (fun l => negb (blank l)) (split_lines two_records)).
Proof.
  do 2 eexists. split; [vm_compute; reflexivity|].
  eapply (load_one_row_per_line sample_loads two_records).
  - reflexivity.
  - vm_compute. reflexivity.
Defined.

(** X27. One ASCII line that is not blank and that cannot be parsed, or
    whose record cannot be flattened, makes the whole load fail: no table is
    returned for the other lines. *)
Theorem load_fails_on_bad_line (loads : string -> Records.Try Records.Json)
    (text line : string) :
  In line (split_lines text) ->
  ascii_only line = true ->
  blank line = false ->
  (forall record, loads (Records.strip line) = Records.Done record ->
     exists e, Records.flatten_transaction_record record = Records.Fail e) ->
  exists e, Records.load_transactions_and_logs loads text = Records.Fail e.
Proof.
  intros Hin _ Hb Hbad. unfold Records.load_transactions_and_logs.
  now apply (load_lines_fails loads (split_lines text) line).
Qed.

Lemma load_fails_on_bad_line_witness :
  exists e, Records.load_transactions_and_logs sample_loads broken_text = Records.Fail e.
Proof.
  apply (load_fails_on_bad_line sample_loads broken_text ("{" ++ nl)%string).
  - vm_compute. right. left. reflexivity.
  - reflexivity.
  - reflexivity.
  - intros record H. vm_compute in H. discriminate H.
Defined.

(** ** The splitter on the bytes of a file *)





